(** * The Observer pattern demo (trucking company): Driver, its observers
      and the interactive loop of index.js / index.ts.

    The class [Driver] and the observer classes are embedded as functions in a
    small monad [JS] (world state, an event trace, and JavaScript exceptions);
    the readline callbacks of [askForStatusChange] are embedded as the two
    callbacks they are, fired by [on_line] once per line of input. *)

From Stdlib Require Import Ascii String ZArith Lia.
From stdpp Require Import base list strings.

Local Open Scope string_scope.
Local Open Scope list_scope.
Local Open Scope Z_scope.

(** ** Values *)

(** An object reference.  [indexOf] compares listeners with [===], which on
    objects is identity of reference: two references are equal exactly when
    they are the same location. *)
Definition loc := nat.

(** [class Driver]: the fields set by its constructor. *)
Record Driver := mkDriver {
  name : string;
  status : string;
  listOfObservers : list loc
}.

(** The classes that have an [Update] method.  [IDriverObserver] is an
    instance of the base class itself (it can be created in index.js, where it
    is a class; in index.ts it is an interface). *)
Inductive Observer :=
| IDriverObserver
| DriverManager (name : string)
| DispatchTeam.

(** What a [throw] carries: [new Error(message)], or the [TypeError] of the
    language for a call of something that is not a function. *)
Inductive Error :=
| mkError (message : string)
| TypeError (message : string).

(** The callback that [rl.question] holds until the next line arrives:
    [(answer) => ...], or [(newStatus) => ...] closed over the
    [availableStatuses] computed when it was created. *)
Inductive Callback :=
| on_answer
| on_newStatus (availableStatuses : list string).

(** The trace of a run.  [ConsoleLog], [Question] and [Close] are what the
    program does to the console; the [Call...] events are ghost events that
    record the entry of a method, to count calls and to order them. *)
Inductive Event :=
| ConsoleLog (line : string)
| Question (query : string)
| Close
| Uncaught (e : Error)
| CallChangeStatus (newStatus : string)
| CallNotify
| CallUpdate (observer : loc) (subject : Driver).

(** ** The world and the monad *)

(** [driver] is the one Driver of the program (the [this] of its methods),
    [heap] the observer objects created so far ([new] appends, a location is
    an index), [trace] what happened, [question] the pending readline callback
    ([None]: no question is pending, the interface is closed or the process
    has ended). *)
Record World := mkWorld {
  driver : Driver;
  heap : list Observer;
  trace : list Event;
  question : option Callback
}.

Inductive Completion (A : Type) :=
| Normal (a : A)
| Throw (e : Error).
Arguments Normal {A} a.
Arguments Throw {A} e.

Definition JS (A : Type) : Type := World -> Completion A * World.

#[global] Instance JS_ret : MRet JS := fun A a w => (Normal a, w).

(** A [Throw] skips the rest of the statements; what was done to the world
    before it stays done. *)
#[global] Instance JS_bind : MBind JS := fun A B k m w =>
  match m w with
  | (Normal a, w') => k a w'
  | (Throw e, w') => (Throw e, w')
  end.

Definition throw {A} (e : Error) : JS A := fun w => (Throw e, w).

Definition get_this : JS Driver := fun w => (Normal (driver w), w).
Definition get_heap : JS (list Observer) := fun w => (Normal (heap w), w).

Definition put_this (d : Driver) : JS unit := fun w =>
  (Normal tt, mkWorld d (heap w) (trace w) (question w)).

Definition emit (e : Event) : JS unit := fun w =>
  (Normal tt, mkWorld (driver w) (heap w) (trace w ++ [e]) (question w)).

Definition set_question (q : option Callback) : JS unit := fun w =>
  (Normal tt, mkWorld (driver w) (heap w) (trace w) q).

Definition console_log (line : string) : JS unit := emit (ConsoleLog line).

(** [rl.question(query, callback)]: writes the query and keeps the callback
    for the next line. *)
Definition rl_question (query : string) (callback : Callback) : JS unit :=
  emit (Question query) ;; set_question (Some callback).

(** [rl.close()]. *)
Definition rl_close : JS unit := emit Close ;; set_question None.

(** [new C(...)] for an observer class. *)
Definition new (o : Observer) : JS loc := fun w =>
  (Normal (length (heap w)),
   mkWorld (driver w) (heap w ++ [o]) (trace w) (question w)).

(** ** Arrays and strings of the language *)

Definition nl : string := String (ascii_of_nat 10) "".

(** [array.push(x)] *)
Definition push {A} (l : list A) (x : A) : list A := l ++ [x].

(** [array.indexOf(x)]: the first index whose element is [=== x], or -1. *)
Fixpoint indexOf_from (l : list loc) (x : loc) (k : Z) : Z :=
  match l with
  | [] => -1
  | y :: l' => if decide (y = x) then k else indexOf_from l' x (k + 1)
  end.

Definition indexOf (l : list loc) (x : loc) : Z := indexOf_from l x 0.

(** [array.splice(start, deleteCount)], the array that is left: a negative
    [start] counts from the end, and both arguments are clamped to the
    array. *)
Definition splice {A} (l : list A) (start deleteCount : Z) : list A :=
  let len := Z.of_nat (length l) in
  let actualStart :=
    if start <? 0 then Z.max (len + start) 0 else Z.min start len in
  let actualDeleteCount := Z.min (Z.max deleteCount 0) (len - actualStart) in
  take (Z.to_nat actualStart) l
    ++ drop (Z.to_nat (actualStart + actualDeleteCount)) l.

(** [array[i]] where the result is only ever made part of a string: an index
    outside the array gives [undefined], which prints as such. *)
Definition at_index (l : list string) (i : Z) : string :=
  if (0 <=? i) && (i <? Z.of_nat (length l))
  then default "undefined" (l !! Z.to_nat i)
  else "undefined".

(** [array.slice(0, -1)] *)
Definition slice_0_m1 {A} (l : list A) : list A := take (length l - 1)%nat l.

(** [array.join(sep)] *)
Fixpoint join (sep : string) (l : list string) : string :=
  match l with
  | [] => ""
  | [x] => x
  | x :: l' => x +:+ sep +:+ join sep l'
  end.

(** [string.toLowerCase()].  A string of the model is the bytes of the text:
    the letters A to Z are mapped, every other byte is kept.  The language
    maps other capitals too, but none of them to a letter of yes or no, so the
    comparisons of [answer_callback] come out the same. *)
Definition toLowerCase_ascii (c : ascii) : ascii :=
  let n := nat_of_ascii c in
  if ((65 <=? n) && (n <=? 90))%nat then ascii_of_nat (n + 32) else c.

Fixpoint toLowerCase (s : string) : string :=
  match s with
  | EmptyString => EmptyString
  | String c s' => String (toLowerCase_ascii c) (toLowerCase s')
  end.

(** ** The observers *)

(** [Update(driver)] of each class.  The base class throws; the two concrete
    observers print one line made of the name and status they read from the
    driver they are given. *)
Definition Update (self : Observer) (driver : Driver) : JS unit :=
  match self with
  | IDriverObserver => throw (mkError "Update method must be implemented")
  | DriverManager name' =>
      console_log ("📋 Driver Manager " +:+ name' +:+ ": {" +:+ name driver
                   +:+ "} is now {" +:+ status driver +:+ "}")
  | DispatchTeam =>
      console_log ("📡 Dispatch notified: {" +:+ name driver
                   +:+ "} status changed to {" +:+ status driver +:+ "}")
  end.

(** ** class Driver *)

(** [constructor(name)] *)
Definition new_Driver (name : string) : Driver :=
  mkDriver name "Available" [].

Definition with_status (newStatus : string) (this : Driver) : Driver :=
  mkDriver (name this) newStatus (listOfObservers this).

Definition with_listOfObservers (l : list loc) (this : Driver) : Driver :=
  mkDriver (name this) (status this) l.

(** [Add(observer)] *)
Definition Add (observer : loc) : JS unit :=
  this ← get_this;
  put_this (with_listOfObservers (push (listOfObservers this) observer) this).

(** [Remove(observer)] *)
Definition Remove (observer : loc) : JS unit :=
  this ← get_this;
  let index := indexOf (listOfObservers this) observer in
  if index >? -1
  then put_this (with_listOfObservers (splice (listOfObservers this) index 1) this)
  else mret tt.

(** [observer.Update(this)]: the method is looked up in the object the
    reference points to.  A reference to nothing stands for a value without an
    [Update] method (index.js does not check what [Add] is given): the call
    itself raises a [TypeError] and no handler runs. *)
Definition call_Update (observer : loc) : JS unit :=
  this ← get_this;
  h ← get_heap;
  match h !! observer with
  | Some obj => emit (CallUpdate observer this) ;; Update obj this
  | None => throw (TypeError "observer.Update is not a function")
  end.

(** [for (const x of array) body]: no [Update] of the program writes to the
    array it is called from, so the loop runs over the array as it is read
    when the loop starts. *)
Fixpoint for_of {A} (array : list A) (body : A -> JS unit) : JS unit :=
  match array with
  | [] => mret tt
  | x :: array' => body x ;; for_of array' body
  end.

(** [Notify()] *)
Definition Notify : JS unit :=
  emit CallNotify ;;
  console_log "UPDATE: Status has been changed." ;;
  console_log "Notify Observers:" ;;
  this ← get_this;
  for_of (listOfObservers this) call_Update.

(** [ChangeStatus(newStatus)] *)
Definition ChangeStatus (newStatus : string) : JS unit :=
  emit (CallChangeStatus newStatus) ;;
  this ← get_this;
  put_this (with_status newStatus this) ;;
  Notify.

(** ** The demo *)

Definition statuses : list string :=
  ["Available"; "En Route"; "Stopped"; "Delivered"].

(** [askForStatusChange()]: prints the current status and asks the yes/no
    question; the rest of the function is the callback [on_answer]. *)
Definition askForStatusChange : JS unit :=
  driver ← get_this;
  console_log ("------ Current driver status: " +:+ status driver
               +:+ " ------ " +:+ nl) ;;
  rl_question "Question: Has the driver status changed? (yes/no): " on_answer.

(** [(newStatus) => { ... }] *)
Definition newStatus_callback (availableStatuses : list string)
    (newStatus : string) : JS unit :=
  if bool_decide (newStatus ∈ availableStatuses)
  then
    console_log "" ;;
    ChangeStatus newStatus ;;
    console_log "" ;;
    askForStatusChange
  else
    console_log ("Invalid status. Please try again." +:+ nl) ;;
    askForStatusChange.

(** [const statusList = ...]: the statuses on offer, as the question shows
    them. *)
Definition statusList (availableStatuses : list string) : string :=
  if bool_decide (length availableStatuses = 1%nat)
  then at_index availableStatuses 0
  else join ", " (slice_0_m1 availableStatuses)
       +:+ ", or "
       +:+ at_index availableStatuses (Z.of_nat (length availableStatuses) - 1).

(** [(answer) => { ... }] *)
Definition answer_callback (answer : string) : JS unit :=
  if bool_decide (toLowerCase answer = "yes")
     || bool_decide (toLowerCase answer = "y")
  then
    driver ← get_this;
    let availableStatuses := filter (λ s, s ≠ status driver) statuses in
    console_log (nl +:+ "Question: What is the new status? ("
                 +:+ statusList availableStatuses +:+ ")") ;;
    rl_question "Enter new status: " (on_newStatus availableStatuses)
  else if bool_decide (toLowerCase answer = "no")
          || bool_decide (toLowerCase answer = "n")
  then
    console_log (nl +:+ "Thank you for confirming this driver's status. Goodbye. "
                 +:+ nl) ;;
    rl_close
  else
    console_log ("Please answer yes or no." +:+ nl) ;;
    askForStatusChange.

Definition run_callback (cb : Callback) (line : string) : JS unit :=
  match cb with
  | on_answer => answer_callback line
  | on_newStatus availableStatuses => newStatus_callback availableStatuses line
  end.

(** A line of input arrives: the pending callback, if there is one, is taken
    out of the interface and called with the line.  An exception that leaves
    the callback is caught by nobody and ends the process. *)
Definition on_line (line : string) (w : World) : World :=
  match question w with
  | None => w
  | Some cb =>
      match run_callback cb line
              (mkWorld (driver w) (heap w) (trace w) None) with
      | (Normal _, w') => w'
      | (Throw e, w') =>
          mkWorld (driver w') (heap w') (trace w' ++ [Uncaught e]) None
      end
  end.

(** The statements of the module, from the banner to the first call of
    [askForStatusChange]. *)
Definition main : JS unit :=
  console_log (nl +:+ "================ Observer Pattern Demo: Trucking Company ================"
               +:+ nl) ;;
  put_this (new_Driver "Ted Lasso") ;;
  driver ← get_this;
  console_log ("- Created driver: " +:+ name driver +:+ nl) ;;
  manager ← new (DriverManager "Rebecca");
  manager2 ← new (DriverManager "Higgins");
  dispatch ← new DispatchTeam;
  console_log ("- Created observers: DriverManager and DispatchTeam " +:+ nl) ;;
  Add manager ;;
  Add manager2 ;;
  Add dispatch ;;
  console_log ("- Observers added to driver " +:+ nl) ;;
  askForStatusChange.

(** The world before the first statement: nothing printed, no object, no
    question; the variable [driver] is yet to be assigned by [main]. *)
Definition empty_World : World := mkWorld (mkDriver "" "" []) [] [] None.

Definition start : World := snd (main empty_World).

(** The program after the given lines of input. *)
Definition run (lines : list string) : World :=
  fold_left (λ w line, on_line line w) lines start.

(** The states the interactive loop can be in. *)
Inductive reachable : World -> Prop :=
| reachable_start : reachable start
| reachable_line w line : reachable w -> reachable (on_line line w).

(** The calls of [Update] in a trace, in order: which listener, and the driver
    it was given. *)
Fixpoint calls_Update (t : list Event) : list (loc * Driver) :=
  match t with
  | [] => []
  | CallUpdate observer subject :: t' => (observer, subject) :: calls_Update t'
  | _ :: t' => calls_Update t'
  end.

(** The calls of [Notify] in a trace. *)
Fixpoint count_Notify (t : list Event) : nat :=
  match t with
  | [] => 0%nat
  | CallNotify :: t' => S (count_Notify t')
  | _ :: t' => count_Notify t'
  end.

(** The arguments of the calls of [ChangeStatus] in a trace. *)
Fixpoint calls_ChangeStatus (t : list Event) : list string :=
  match t with
  | [] => []
  | CallChangeStatus newStatus :: t' => newStatus :: calls_ChangeStatus t'
  | _ :: t' => calls_ChangeStatus t'
  end.

(** ** What the properties are stated with *)

(** The world with more events in its trace. *)
Definition after (w : World) (t : list Event) : World :=
  mkWorld (driver w) (heap w) (trace w ++ t) (question w).

(** A trace of printed lines only. *)
Definition only_prints (t : list Event) : Prop :=
  Forall (λ e, ∃ line, e = ConsoleLog line) t.

(** The listener at [o] has an [Update] handler, and it returns. *)
Definition returns (h : list Observer) (o : loc) : Prop :=
  ∃ obj, h !! o = Some obj ∧ ∀ d w, (Update obj d w).1 = Normal tt.

(** The listener at [o] has an [Update] handler, and it raises [e]. *)
Definition raises (h : list Observer) (o : loc) (e : Error) : Prop :=
  ∃ obj, h !! o = Some obj ∧ ∀ d w, (Update obj d w).1 = Throw e.

(** A word of small letters, and the strings that spell a word in small or
    capital letters. *)
Fixpoint small_letters (t : string) : Prop :=
  match t with
  | EmptyString => True
  | String l t' => (97 <= nat_of_ascii l <= 122)%nat ∧ small_letters t'
  end.

Fixpoint same_letters (s t : string) : Prop :=
  match s, t with
  | EmptyString, EmptyString => True
  | String c s', String l t' =>
      (c = l ∨ (nat_of_ascii c + 32 = nat_of_ascii l)%nat) ∧ same_letters s' t'
  | _, _ => False
  end.

(** What a trace says of the calls made while it was written. *)
Record calls_are (t : list Event) (updates : list (loc * Driver))
    (notifies : nat) (changes : list string) : Prop := {
  calls_are_Update : calls_Update t = updates;
  calls_are_Notify : count_Notify t = notifies;
  calls_are_ChangeStatus : calls_ChangeStatus t = changes
}.

(** What [askForStatusChange] writes. *)
Definition asks (d : Driver) : list Event :=
  [ConsoleLog ("------ Current driver status: " +:+ status d +:+ " ------ "
               +:+ nl);
   Question "Question: Has the driver status changed? (yes/no): "].

(** What holds of every state of the loop. *)
Definition loop_invariant (w : World) : Prop :=
  status (driver w) ∈ statuses
  ∧ Forall (λ s, s ∈ statuses) (calls_ChangeStatus (trace w))
  ∧ ∀ availableStatuses,
      question w = Some (on_newStatus availableStatuses) ->
      ∀ s, s ∈ availableStatuses -> s ∈ statuses.

(** The three observers of the demo, and a world where the driver has the
    given references registered. *)
Definition demo_heap : list Observer :=
  [DriverManager "Rebecca"; DriverManager "Higgins"; DispatchTeam].

Definition demo_World (l : list loc) : World :=
  mkWorld (mkDriver "Ted Lasso" "Available" l) demo_heap [] None.

(** What holds, besides, of every state of the loop of the demo: the
    observers and their registration never change, and no question is pending
    only once the interface was closed. *)
Definition demo_invariant (w : World) : Prop :=
  heap w = demo_heap
  ∧ listOfObservers (driver w) = [0; 1; 2]%nat
  ∧ name (driver w) = "Ted Lasso"
  ∧ (question w = None -> ∃ t, trace w = t ++ [Close]).

(** A heap where the second listener is an instance of the base class. *)
Definition failing_heap : list Observer :=
  [DriverManager "Rebecca"; IDriverObserver; DispatchTeam].

(** The array without its first entry [x] (the array itself when no entry is
    [x]). *)
Fixpoint without_first (x : loc) (l : list loc) : list loc :=
  match l with
  | [] => []
  | y :: l' => if decide (y = x) then l' else y :: without_first x l'
  end.

(** The lines that a trace shows on the console, in order. *)
Fixpoint printed (t : list Event) : list string :=
  match t with
  | [] => []
  | ConsoleLog line :: t' => line :: printed t'
  | _ :: t' => printed t'
  end.

(** No string of the list is the string just before it, [previous] being
    before the first. *)
Fixpoint no_repeat (previous : string) (l : list string) : Prop :=
  match l with
  | [] => True
  | s :: l' => previous ≠ s ∧ no_repeat s l'
  end.

(** The exceptions that ended the process, in a trace. *)
Fixpoint uncaught (t : list Event) : list Error :=
  match t with
  | [] => []
  | Uncaught e :: t' => e :: uncaught t'
  | _ :: t' => uncaught t'
  end.

(** What a trace says of the calls made and of the lines shown while it was
    written, when no exception ended the process. *)
Record reads (t : list Event) (updates : list (loc * Driver)) (notifies : nat)
    (changes : list string) (lines : nat) : Prop := {
  reads_calls : calls_are t updates notifies changes;
  reads_printed : length (printed t) = lines;
  reads_uncaught : uncaught t = []
}.

(** What holds of the history of the demo, in every state of the loop: no
    exception ended the process; the calls of [Update] are, for each call of
    [ChangeStatus] in turn, those of the three observers with the driver that
    has the new status; [Notify] was called as often as [ChangeStatus]; the
    status is the one of the last call of [ChangeStatus]; no call gave the
    status that the driver had; and a pending question for the new status
    offers the enumerated statuses other than the current one. *)
Definition history_invariant (w : World) : Prop :=
  uncaught (trace w) = []
  ∧ calls_Update (trace w)
    = flat_map (λ s, map (λ o, (o, mkDriver "Ted Lasso" s [0; 1; 2]%nat))
                     [0; 1; 2]%nat)
        (calls_ChangeStatus (trace w))
  ∧ count_Notify (trace w) = length (calls_ChangeStatus (trace w))
  ∧ status (driver w)
    = default "Available" (last (calls_ChangeStatus (trace w)))
  ∧ no_repeat "Available" (calls_ChangeStatus (trace w))
  ∧ ∀ availableStatuses,
      question w = Some (on_newStatus availableStatuses) ->
      availableStatuses = filter (λ s, s ≠ status (driver w)) statuses.

(** * Properties *)

(** ** The monad *)

Lemma bind_Normal {A B} (m : JS A) (k : A -> JS B) w a w' :
  m w = (Normal a, w') -> (m ≫= k) w = k a w'.
Proof. intros Hm. unfold mbind, JS_bind. now rewrite Hm. Qed.

Lemma bind_Throw {A B} (m : JS A) (k : A -> JS B) w e w' :
  m w = (Throw e, w') -> (m ≫= k) w = (Throw e, w').
Proof. intros Hm. unfold mbind, JS_bind. now rewrite Hm. Qed.

Lemma after_nil w : after w [] = w.
Proof. destruct w. unfold after. simpl. now rewrite app_nil_r. Qed.

Lemma after_after w t u : after (after w t) u = after w (t ++ u).
Proof. unfold after. simpl. now rewrite app_assoc. Qed.

Lemma emit_after e w : emit e w = (Normal tt, after w [e]).
Proof. reflexivity. Qed.

Lemma calls_Update_app t u :
  calls_Update (t ++ u) = calls_Update t ++ calls_Update u.
Proof.
  induction t as [|e t IH]; [reflexivity|].
  destruct e; simpl; rewrite IH; reflexivity.
Qed.

Lemma count_Notify_app t u :
  count_Notify (t ++ u) = (count_Notify t + count_Notify u)%nat.
Proof.
  induction t as [|e t IH]; [reflexivity|].
  destruct e; simpl; rewrite IH; reflexivity.
Qed.

Lemma calls_ChangeStatus_app t u :
  calls_ChangeStatus (t ++ u) = calls_ChangeStatus t ++ calls_ChangeStatus u.
Proof.
  induction t as [|e t IH]; [reflexivity|].
  destruct e; simpl; rewrite IH; reflexivity.
Qed.

Create Rewrite HintDb calls.
#[local] Hint Rewrite calls_Update_app count_Notify_app calls_ChangeStatus_app
  : calls.

(** ** Arrays *)

Lemma indexOf_from_absent l x k : x ∉ l -> indexOf_from l x k = -1.
Proof.
  revert k. induction l as [|y l IH]; intros k Hx; [reflexivity|].
  simpl. apply not_elem_of_cons in Hx as [Hne Hx].
  destruct (decide (y = x)); [congruence|]. now apply IH.
Qed.

Lemma indexOf_from_first pre x post k :
  x ∉ pre ->
  indexOf_from (pre ++ x :: post) x k = k + Z.of_nat (length pre).
Proof.
  revert k. induction pre as [|y pre IH]; intros k Hx; simpl.
  - destruct (decide (x = x)); [lia|congruence].
  - apply not_elem_of_cons in Hx as [Hne Hx].
    destruct (decide (y = x)); [congruence|]. rewrite IH by assumption. lia.
Qed.

Lemma indexOf_absent l x : x ∉ l -> indexOf l x = -1.
Proof. apply indexOf_from_absent. Qed.

Lemma indexOf_first pre x post :
  x ∉ pre -> indexOf (pre ++ x :: post) x = Z.of_nat (length pre).
Proof. intros Hx. unfold indexOf. now rewrite indexOf_from_first. Qed.

(** [indexOf] answers -1 or an index of the array. *)
Lemma indexOf_from_range l x k :
  indexOf_from l x k = -1
  \/ k <= indexOf_from l x k < k + Z.of_nat (length l).
Proof.
  revert k. induction l as [|y l IH]; intros k; simpl; [now left|].
  destruct (decide (y = x)); [right; lia|].
  destruct (IH (k + 1)) as [H|H]; [now left|right; lia].
Qed.

Lemma splice_one {A} (pre : list A) x post :
  splice (pre ++ x :: post) (Z.of_nat (length pre)) 1 = pre ++ post.
Proof.
  unfold splice. rewrite length_app. simpl length.
  destruct (Z.ltb_spec (Z.of_nat (length pre)) 0) as [Hneg|_]; [lia|].
  rewrite Z.min_l by lia.
  rewrite Z.max_l by lia.
  rewrite Z.min_l by lia.
  rewrite Nat2Z.id.
  replace (Z.to_nat (Z.of_nat (length pre) + 1)) with (S (length pre)) by lia.
  rewrite take_app_length.
  replace (pre ++ x :: post) with ((pre ++ [x]) ++ post)
    by now rewrite <- app_assoc.
  rewrite drop_app_length'; [reflexivity|].
  rewrite length_app. simpl. lia.
Qed.

(** Why [Remove] tests the index: on -1, [splice] would take the last
    element away. *)
Example splice_minus_one : splice [10; 20; 30]%nat (-1) 1 = [10; 20]%nat.
Proof. reflexivity. Qed.

(** [toLowerCase] on one character: the result is a given small letter
    exactly for that letter and for its capital. *)
Lemma toLowerCase_ascii_small (c l : ascii) :
  (97 <= nat_of_ascii l <= 122)%nat ->
  toLowerCase_ascii c = l
  <-> c = l ∨ (nat_of_ascii c + 32 = nat_of_ascii l)%nat.
Proof.
  intros Hl. unfold toLowerCase_ascii.
  destruct (Nat.leb_spec 65 (nat_of_ascii c)) as [H65|H65];
    [destruct (Nat.leb_spec (nat_of_ascii c) 90) as [H90|H90]|]; simpl.
  - split.
    + intros <-. right. rewrite nat_ascii_embedding; lia.
    + intros [-> | Heq]; [lia|].
      rewrite Heq. apply ascii_nat_embedding.
  - split; [now left|]. intros [Heq|Heq]; [exact Heq|lia].
  - split; [now left|]. intros [Heq|Heq]; [exact Heq|lia].
Qed.

(** [toLowerCase] gives a word of small letters exactly for the strings that
    spell it, letter by letter, in small or capital letters. *)
Lemma toLowerCase_small_letters (s t : string) :
  small_letters t -> toLowerCase s = t <-> same_letters s t.
Proof.
  revert s. induction t as [|l t IH]; intros [|c s] Ht; simpl; try easy.
  destruct Ht as [Hl Ht]. split.
  - intros [= Hc Hs]. split.
    + now apply toLowerCase_ascii_small.
    + now apply IH.
  - intros [Hc Hs]. f_equal.
    + now apply toLowerCase_ascii_small.
    + now apply IH.
Qed.

Example toLowerCase_examples :
  toLowerCase "YES" = "yes" ∧ toLowerCase "Yes" = "yes"
  ∧ toLowerCase "No" = "no" ∧ toLowerCase "yes " = "yes "
  ∧ toLowerCase "En Route" = "en route".
Proof. repeat split. Qed.

(** ** Update *)

Lemma only_prints_calls t :
  only_prints t ->
  calls_Update t = [] ∧ count_Notify t = 0%nat ∧ calls_ChangeStatus t = [].
Proof.
  induction 1 as [|e t [line ->] _ IH]; [easy|]. simpl. exact IH.
Qed.

(** No [Update] touches the driver it is given, the heap or the pending
    question: it prints, or throws. *)
Lemma Update_world obj d w :
  ∃ t, (Update obj d w).2 = after w t ∧ only_prints t.
Proof.
  destruct obj; simpl.
  - exists []. split; [now rewrite after_nil|constructor].
  - eexists [_]. split; [reflexivity|]. repeat constructor. eauto.
  - eexists [_]. split; [reflexivity|]. repeat constructor. eauto.
Qed.

Lemma returns_DriverManager h o n : h !! o = Some (DriverManager n) -> returns h o.
Proof. intros H. exists (DriverManager n). split; [exact H|reflexivity]. Qed.

Lemma returns_DispatchTeam h o : h !! o = Some DispatchTeam -> returns h o.
Proof. intros H. exists DispatchTeam. split; [exact H|reflexivity]. Qed.

Lemma raises_IDriverObserver h o :
  h !! o = Some IDriverObserver ->
  raises h o (mkError "Update method must be implemented").
Proof. intros H. exists IDriverObserver. split; [exact H|reflexivity]. Qed.

(** A call of [Update] on a listener that has the method: the call is
    recorded, the handler runs on the driver, and its completion is that of
    the call. *)
Lemma call_Update_found w o obj :
  heap w !! o = Some obj ->
  ∃ t, call_Update o w
       = ((Update obj (driver w) (after w [CallUpdate o (driver w)])).1,
          after w (CallUpdate o (driver w) :: t))
       ∧ only_prints t.
Proof.
  intros Hobj.
  destruct (Update_world obj (driver w) (after w [CallUpdate o (driver w)]))
    as (t & Hw & Ht).
  exists t. split; [|exact Ht].
  unfold call_Update, get_this, get_heap, mbind, JS_bind.
  rewrite Hobj, emit_after.
  destruct (Update obj (driver w) (after w [CallUpdate o (driver w)]))
    as [c w'].
  simpl in Hw. subst w'. rewrite after_after. now destruct c.
Qed.

Lemma call_Update_returns w o :
  returns (heap w) o ->
  ∃ t, call_Update o w = (Normal tt, after w (CallUpdate o (driver w) :: t))
       ∧ only_prints t.
Proof.
  intros (obj & Hobj & Hret).
  destruct (call_Update_found w o obj Hobj) as (t & Hcall & Ht).
  exists t. now rewrite Hcall, Hret.
Qed.

Lemma call_Update_raises w o e :
  raises (heap w) o e ->
  ∃ t, call_Update o w = (Throw e, after w (CallUpdate o (driver w) :: t))
       ∧ only_prints t.
Proof.
  intros (obj & Hobj & Hraise).
  destruct (call_Update_found w o obj Hobj) as (t & Hcall & Ht).
  exists t. now rewrite Hcall, Hraise.
Qed.

(** ** Notify *)

(** The calls in a trace made of two, where the first starts with a call of
    [Update] followed by printed lines. *)
Lemma calls_are_call_Update o d t1 t2 updates :
  only_prints t1 ->
  calls_are t2 updates 0 [] ->
  calls_are ((CallUpdate o d :: t1) ++ t2) ((o, d) :: updates) 0 [].
Proof.
  intros Ht1 [Hu2 Hn2 Hc2].
  apply only_prints_calls in Ht1 as (Hu & Hn & Hc).
  split; autorewrite with calls; simpl.
  - now rewrite Hu, Hu2.
  - now rewrite Hn, Hn2.
  - now rewrite Hc, Hc2.
Qed.

(** The loop of [Notify] over listeners whose handlers return. *)
Lemma for_of_call_Update_returns l w :
  (∀ o, o ∈ l -> returns (heap w) o) ->
  ∃ t, for_of l call_Update w = (Normal tt, after w t)
       ∧ calls_are t (map (λ o, (o, driver w)) l) 0 [].
Proof.
  revert w. induction l as [|o l IH]; intros w Hl.
  - exists []. split; [simpl; now rewrite after_nil|now split].
  - destruct (call_Update_returns w o) as (t1 & H1 & Ht1);
      [apply Hl; left|].
    destruct (IH (after w (CallUpdate o (driver w) :: t1))) as (t2 & H2 & Ht2);
      [intros o' Ho'; apply Hl; now right|].
    exists ((CallUpdate o (driver w) :: t1) ++ t2). split.
    + simpl for_of. rewrite (bind_Normal _ _ _ _ _ H1), H2.
      now rewrite after_after.
    + now apply calls_are_call_Update.
Qed.

(** The loop of [Notify] when the handlers of [pre] return and the next one
    raises: the loop ends there. *)
Lemma for_of_call_Update_raises pre o post e w :
  (∀ p, p ∈ pre -> returns (heap w) p) ->
  raises (heap w) o e ->
  ∃ t, for_of (pre ++ o :: post) call_Update w = (Throw e, after w t)
       ∧ calls_are t (map (λ x, (x, driver w)) (pre ++ [o])) 0 [].
Proof.
  revert w. induction pre as [|p pre IH]; intros w Hpre Ho.
  - destruct (call_Update_raises w o e Ho) as (t & H & Ht).
    exists ((CallUpdate o (driver w) :: t) ++ []). split.
    + simpl. rewrite app_nil_r. now rewrite (bind_Throw _ _ _ _ _ H).
    + apply calls_are_call_Update; [exact Ht|now split].
  - destruct (call_Update_returns w p) as (t1 & H1 & Ht1);
      [apply Hpre; left|].
    destruct (IH (after w (CallUpdate p (driver w) :: t1))) as (t2 & H2 & Ht2);
      [intros p' Hp'; apply Hpre; now right|exact Ho|].
    exists ((CallUpdate p (driver w) :: t1) ++ t2). split.
    + simpl for_of. rewrite (bind_Normal _ _ _ _ _ H1), H2.
      now rewrite after_after.
    + now apply calls_are_call_Update.
Qed.

(** [Notify] is its two lines and the loop. *)
Lemma Notify_unfold w :
  Notify w =
  for_of (listOfObservers (driver w)) call_Update
    (after w [CallNotify; ConsoleLog "UPDATE: Status has been changed.";
              ConsoleLog "Notify Observers:"]).
Proof.
  unfold Notify, console_log, get_this, mbind, JS_bind.
  rewrite !emit_after, !after_after. reflexivity.
Qed.

(** One call of [Update], whatever the listener: the driver, the heap and the
    question are as before, and the call either returns after the handler ran
    or throws (before the handler, when there is none, or from it). *)
Lemma call_Update_frame w o :
  ∃ c t, call_Update o w = (c, after w t)
         ∧ count_Notify t = 0%nat ∧ calls_ChangeStatus t = []
         ∧ (c = Normal tt ∧ calls_Update t = [(o, driver w)]
            ∨ (∃ e, c = Throw e)
              ∧ (calls_Update t = [] ∨ calls_Update t = [(o, driver w)])).
Proof.
  destruct (heap w !! o) as [obj|] eqn:Hobj.
  - destruct (call_Update_found w o obj Hobj) as (t & Hcall & Ht).
    apply only_prints_calls in Ht as (Hu & Hn & Hc).
    eexists _, (CallUpdate o (driver w) :: t).
    split; [exact Hcall|]. simpl. rewrite Hu.
    split; [exact Hn|]. split; [exact Hc|].
    destruct (Update _ _ _).1 as [[]|e]; [left; now split|right; split; eauto].
  - exists (Throw (TypeError "observer.Update is not a function")), [].
    unfold call_Update, get_this, get_heap, mbind, JS_bind.
    rewrite Hobj, after_nil. unfold throw. repeat split; eauto.
Qed.

(** The loop of [Notify], whatever the listeners: the calls of [Update] it
    makes are the first listeners of the array, in order, and all of them when
    it returns. *)
Lemma for_of_call_Update_frame l w :
  ∃ c t, for_of l call_Update w = (c, after w t)
         ∧ count_Notify t = 0%nat ∧ calls_ChangeStatus t = []
         ∧ calls_Update t `prefix_of` map (λ o, (o, driver w)) l
         ∧ (c = Normal tt -> calls_Update t = map (λ o, (o, driver w)) l).
Proof.
  revert w. induction l as [|o l IH]; intros w.
  - exists (Normal tt), []. simpl. rewrite after_nil.
    split; [reflexivity|]. split; [reflexivity|]. split; [reflexivity|].
    split; [apply prefix_nil|reflexivity].
  - destruct (call_Update_frame w o) as (c1 & t1 & H1 & Hn1 & Hc1 & Hcase).
    destruct Hcase as [[-> Hu1]|[[e ->] Hu1]].
    + destruct (IH (after w t1)) as (c2 & t2 & H2 & Hn2 & Hc2 & Hp2 & Hall2).
      exists c2, (t1 ++ t2). simpl for_of.
      rewrite (bind_Normal _ _ _ _ _ H1), H2, after_after.
      rewrite count_Notify_app, calls_ChangeStatus_app, calls_Update_app.
      rewrite Hn1, Hn2, Hc1, Hc2, Hu1. simpl in *.
      split; [reflexivity|]. split; [reflexivity|]. split; [reflexivity|].
      split; [now apply prefix_cons|].
      intros Hc. now rewrite Hall2.
    + exists (Throw e), t1. simpl for_of.
      rewrite (bind_Throw _ _ _ _ _ H1).
      split; [reflexivity|]. split; [exact Hn1|]. split; [exact Hc1|].
      split; [|discriminate].
      destruct Hu1 as [->| ->]; [apply prefix_nil|].
      simpl. apply prefix_cons, prefix_nil.
Qed.

Lemma Notify_returns w :
  Forall (returns (heap w)) (listOfObservers (driver w)) ->
  ∃ t, Notify w = (Normal tt, after w (CallNotify :: t))
       ∧ calls_are t (map (λ o, (o, driver w)) (listOfObservers (driver w))) 0 [].
Proof.
  intros Hret. rewrite Notify_unfold.
  set (banner := [CallNotify; _; _]).
  destruct (for_of_call_Update_returns (listOfObservers (driver w))
              (after w banner)) as (t & Ht & [Hu Hn Hc]).
  { intros o Ho. rewrite Forall_forall in Hret. now apply Hret. }
  exists (tail banner ++ t). split.
  - rewrite Ht, after_after. reflexivity.
  - split; [rewrite calls_Update_app|rewrite count_Notify_app
           |rewrite calls_ChangeStatus_app]; assumption.
Qed.

Lemma Notify_frame w :
  ∃ c t, Notify w = (c, after w (CallNotify :: t))
         ∧ count_Notify t = 0%nat ∧ calls_ChangeStatus t = []
         ∧ calls_Update t
           `prefix_of` map (λ o, (o, driver w)) (listOfObservers (driver w))
         ∧ (c = Normal tt ->
            calls_Update t
            = map (λ o, (o, driver w)) (listOfObservers (driver w))).
Proof.
  rewrite Notify_unfold.
  set (banner := [CallNotify; _; _]).
  destruct (for_of_call_Update_frame (listOfObservers (driver w))
              (after w banner)) as (c & t & Ht & Hn & Hc & Hp & Hall).
  exists c, (tail banner ++ t). split.
  - rewrite Ht, after_after. reflexivity.
  - rewrite calls_Update_app, count_Notify_app, calls_ChangeStatus_app.
    auto.
Qed.

(** ** ChangeStatus *)

Lemma ChangeStatus_unfold s w :
  ChangeStatus s w =
  Notify (mkWorld (with_status s (driver w)) (heap w)
            (trace w ++ [CallChangeStatus s]) (question w)).
Proof. reflexivity. Qed.

(** The world after [ChangeStatus], whether it returns or throws. *)
Lemma ChangeStatus_frame s w :
  ∃ c t, ChangeStatus s w =
           (c, mkWorld (with_status s (driver w)) (heap w)
                 (trace w ++ CallChangeStatus s :: CallNotify :: t)
                 (question w))
         ∧ count_Notify t = 0%nat ∧ calls_ChangeStatus t = []
         ∧ calls_Update t
           `prefix_of` map (λ o, (o, with_status s (driver w)))
                         (listOfObservers (driver w))
         ∧ (c = Normal tt ->
            calls_Update t
            = map (λ o, (o, with_status s (driver w)))
                (listOfObservers (driver w))).
Proof.
  rewrite ChangeStatus_unfold.
  set (w1 := mkWorld _ _ _ _).
  destruct (Notify_frame w1) as (c & t & HN & Hn & Hc & Hp & Hall).
  exists c, t. split; [|auto].
  rewrite HN. unfold after, w1. simpl. now rewrite <- app_assoc.
Qed.

Lemma ChangeStatus_returns s w :
  Forall (returns (heap w)) (listOfObservers (driver w)) ->
  (ChangeStatus s w).1 = Normal tt.
Proof.
  intros Hret. rewrite ChangeStatus_unfold.
  destruct (Notify_returns
              (mkWorld (with_status s (driver w)) (heap w)
                 (trace w ++ [CallChangeStatus s]) (question w)))
    as (t & HN & _); [exact Hret|].
  now rewrite HN.
Qed.

(** ** Add and Remove *)

Lemma Add_eq x w :
  Add x w = (Normal tt,
             mkWorld (with_listOfObservers (listOfObservers (driver w) ++ [x])
                        (driver w))
               (heap w) (trace w) (question w)).
Proof. reflexivity. Qed.

Lemma for_of_Add xs w :
  for_of xs Add w =
  (Normal tt,
   mkWorld (with_listOfObservers (listOfObservers (driver w) ++ xs) (driver w))
     (heap w) (trace w) (question w)).
Proof.
  revert w. induction xs as [|x xs IH]; intros w.
  - simpl. rewrite app_nil_r. now destruct w as [[] ? ? ?].
  - simpl for_of. rewrite (bind_Normal _ _ _ _ _ (Add_eq x w)), IH. simpl.
    unfold with_listOfObservers. simpl. now rewrite <- app_assoc.
Qed.

Lemma Remove_absent x w :
  x ∉ listOfObservers (driver w) -> Remove x w = (Normal tt, w).
Proof.
  intros Hx. unfold Remove, get_this, mbind, JS_bind.
  now rewrite indexOf_absent.
Qed.

Lemma Remove_first pre x post w :
  listOfObservers (driver w) = pre ++ x :: post ->
  x ∉ pre ->
  Remove x w = (Normal tt,
                mkWorld (with_listOfObservers (pre ++ post) (driver w))
                  (heap w) (trace w) (question w)).
Proof.
  intros Hl Hx. unfold Remove, get_this, mbind, JS_bind.
  rewrite Hl, indexOf_first by assumption.
  destruct (Z.gtb_spec (Z.of_nat (length pre)) (-1)) as [_|Hlt]; [|lia].
  now rewrite splice_one.
Qed.

(** ** Properties of class Driver *)

Lemma demo_heap_returns l :
  Forall (λ o, (o < 3)%nat) l -> Forall (returns demo_heap) l.
Proof.
  intros Hl. eapply Forall_impl; [exact Hl|]. clear. intros o Ho. simpl in Ho.
  destruct o as [|[|[|o]]]; [| | |lia].
  - exact (returns_DriverManager demo_heap 0%nat "Rebecca" eq_refl).
  - exact (returns_DriverManager demo_heap 1%nat "Higgins" eq_refl).
  - exact (returns_DispatchTeam demo_heap 2%nat eq_refl).
Qed.

(** C1. After any sequence [xs] of calls of [Add] on a driver, when the
    [Update] handler of every registered listener returns, [Notify] returns
    and has called [Update] once for each entry of the observer array, in the
    order of registration, each time with the driver itself as argument. *)
Theorem Notify_invokes_each_listener_in_order (w : World) (xs : list loc) :
  let w1 := (for_of xs Add w).2 in
  Forall (returns (heap w)) (listOfObservers (driver w) ++ xs) ->
  listOfObservers (driver w1) = listOfObservers (driver w) ++ xs
  ∧ ∃ t, Notify w1 = (Normal tt, after w1 t)
         ∧ calls_Update t
           = map (λ o, (o, driver w1)) (listOfObservers (driver w) ++ xs).
Proof.
  intros w1 Hret. subst w1. rewrite for_of_Add. cbn [snd].
  set (w1 := mkWorld _ _ _ _).
  assert (Hl : listOfObservers (driver w1) = listOfObservers (driver w) ++ xs)
    by reflexivity.
  split; [exact Hl|].
  destruct (Notify_returns w1) as (t & HN & [Hu _ _]).
  { rewrite Hl. exact Hret. }
  exists (CallNotify :: t). split; [exact HN|].
  simpl. rewrite Hu, Hl. reflexivity.
Qed.

Lemma Notify_invokes_each_listener_in_order_witness :
  let d := mkDriver "Ted Lasso" "Available" [1; 0; 2; 0]%nat in
  let w1 := (for_of [0; 2; 0]%nat Add (demo_World [1%nat])).2 in
  listOfObservers (driver w1) = [1; 0; 2; 0]%nat
  ∧ ∃ t, Notify w1 = (Normal tt, after w1 t)
         ∧ calls_Update t = [(1, d); (0, d); (2, d); (0, d)]%nat.
Proof.
  apply (Notify_invokes_each_listener_in_order (demo_World [1%nat]) [0; 2; 0]%nat).
  apply demo_heap_returns. simpl. repeat constructor.
Defined.

(** C1 does not hold without the condition on the handlers: three listeners
    are registered by [Add], the second is an instance of the base class,
    whose [Update] throws.  [Notify] throws, and the third listener is not
    called. *)
Lemma Notify_skips_listeners_after_a_failing_one :
  let d := mkDriver "Ted Lasso" "Available" [0; 1; 2]%nat in
  let w := (for_of [0; 1; 2]%nat Add
              (mkWorld (new_Driver "Ted Lasso") failing_heap [] None)).2 in
  driver w = d
  ∧ (Notify w).1 = Throw (mkError "Update method must be implemented")
  ∧ calls_Update (trace (Notify w).2) = [(0, d); (1, d)]%nat
  ∧ calls_Update (trace (Notify w).2)
    ≠ map (λ o, (o, d)) (listOfObservers d).
Proof.
  vm_compute. split; [reflexivity|]. split; [reflexivity|].
  split; [reflexivity|]. discriminate.
Qed.

(** C7. A failing listener is not isolated: when the handlers of the
    listeners before the k-th return and the handler of the k-th raises [e],
    [Notify] throws [e], and the calls of [Update] it made are those of the
    first k listeners: no listener after the k-th is called. *)
Theorem Notify_stops_at_failing_listener (w : World) (pre post : list loc)
    (o : loc) (e : Error) :
  listOfObservers (driver w) = pre ++ o :: post ->
  Forall (returns (heap w)) pre ->
  raises (heap w) o e ->
  ∃ t, Notify w = (Throw e, after w t)
       ∧ calls_Update t = map (λ x, (x, driver w)) (pre ++ [o]).
Proof.
  intros Hl Hpre Ho. rewrite Notify_unfold, Hl.
  set (banner := [CallNotify; _; _]).
  destruct (for_of_call_Update_raises pre o post e (after w banner))
    as (t & Ht & [Hu _ _]).
  { intros p Hp. rewrite Forall_forall in Hpre. now apply Hpre. }
  { exact Ho. }
  exists (banner ++ t). split.
  - rewrite Ht, after_after. reflexivity.
  - rewrite calls_Update_app. exact Hu.
Qed.

Lemma Notify_stops_at_failing_listener_witness :
  let d := mkDriver "Ted Lasso" "Available" [0; 1; 2]%nat in
  let w := mkWorld d failing_heap [] None in
  ∃ t, Notify w = (Throw (mkError "Update method must be implemented"), after w t)
       ∧ calls_Update t = [(0, d); (1, d)]%nat.
Proof.
  intros d w.
  apply (Notify_stops_at_failing_listener w [0%nat] [2%nat] 1%nat).
  - reflexivity.
  - repeat constructor.
    exact (returns_DriverManager failing_heap 0%nat "Rebecca" eq_refl).
  - exact (raises_IDriverObserver failing_heap 1%nat eq_refl).
Defined.

(** C2. [ChangeStatus(s)] sets the status to [s] whatever [s] is,
    and then calls [Notify] exactly once; that call notifies listeners
    registered at the time, in the order of registration and with the driver
    whose status is already [s]: all of them when the [Update] handler of
    every registered listener returns. *)
Theorem ChangeStatus_sets_status_then_notifies_once (w : World) (s : string) :
  let r := ChangeStatus s w in
  let this := with_status s (driver w) in
  status (driver r.2) = s
  ∧ ∃ t, trace r.2 = trace w ++ CallChangeStatus s :: CallNotify :: t
         ∧ count_Notify t = 0%nat
         ∧ calls_ChangeStatus t = []
         ∧ calls_Update t
           `prefix_of` map (λ o, (o, this)) (listOfObservers (driver w))
         ∧ (Forall (returns (heap w)) (listOfObservers (driver w)) ->
            r.1 = Normal tt
            ∧ calls_Update t
              = map (λ o, (o, this)) (listOfObservers (driver w))).
Proof.
  intros r this. subst r this.
  destruct (ChangeStatus_frame s w) as (c & t & HC & Hn & Hc & Hp & Hall).
  rewrite HC. simpl. split; [reflexivity|].
  exists t. split; [reflexivity|].
  split; [exact Hn|]. split; [exact Hc|]. split; [exact Hp|].
  intros Hret.
  pose proof (ChangeStatus_returns s w Hret) as Hc'.
  rewrite HC in Hc'. simpl in Hc'. subst c.
  split; [reflexivity|]. now apply Hall.
Qed.

Lemma ChangeStatus_sets_status_then_notifies_once_witness :
  let w := demo_World [2; 0]%nat in
  let r := ChangeStatus "Lunch break" w in
  let this := mkDriver "Ted Lasso" "Lunch break" [2; 0]%nat in
  status (driver r.2) = "Lunch break"
  ∧ r.1 = Normal tt
  ∧ calls_Update (trace r.2) = [(2, this); (0, this)]%nat
  ∧ count_Notify (trace r.2) = 1%nat.
Proof.
  intros w r this.
  destruct (ChangeStatus_sets_status_then_notifies_once w "Lunch break")
    as (Hs & t & Ht & Hn & _ & _ & Hall).
  destruct Hall as [Hc Hu].
  { apply demo_heap_returns. simpl. repeat constructor. }
  split; [exact Hs|]. split; [exact Hc|].
  fold r in Ht. rewrite Ht. simpl. rewrite Hn, Hu. split; reflexivity.
Defined.

(** C2 does not hold without the condition on the handlers: the second of
    three registered listeners is an instance of the base class.
    [ChangeStatus] sets the status and calls [Notify] once, but the third
    listener is not notified. *)
Lemma ChangeStatus_does_not_notify_after_a_failing_listener :
  let w := mkWorld (mkDriver "Ted Lasso" "Available" [0; 1; 2]%nat)
             failing_heap [] None in
  let d := mkDriver "Ted Lasso" "En Route" [0; 1; 2]%nat in
  let r := ChangeStatus "En Route" w in
  driver r.2 = d
  ∧ r.1 = Throw (mkError "Update method must be implemented")
  ∧ count_Notify (trace r.2) = 1%nat
  ∧ calls_Update (trace r.2) = [(0, d); (1, d)]%nat
  ∧ calls_Update (trace r.2)
    ≠ map (λ o, (o, d)) (listOfObservers (driver w)).
Proof.
  vm_compute. split; [reflexivity|]. split; [reflexivity|].
  split; [reflexivity|]. split; [reflexivity|]. discriminate.
Qed.

(** C9. [ChangeStatus(s)] writes the status field only: the name of the driver
    and its observer array are the same before and after the call, whether
    the call returns or a handler throws; so are the observer objects and the
    pending question. *)
Theorem ChangeStatus_changes_only_status (w : World) (s : string) :
  let w' := (ChangeStatus s w).2 in
  name (driver w') = name (driver w)
  ∧ listOfObservers (driver w') = listOfObservers (driver w)
  ∧ status (driver w') = s
  ∧ heap w' = heap w
  ∧ question w' = question w.
Proof.
  intros w'. subst w'.
  destruct (ChangeStatus_frame s w) as (c & t & HC & _).
  rewrite HC. simpl. auto.
Qed.

(** C6. [Add(x)] returns, and puts [x] at the end of the observer
    array whether or not [x] is in it already; nothing else changes.  So after
    two calls of [Add(x)] the array ends with two entries [x], and when the
    [Update] handler of every registered listener returns, a [Notify] calls
    the [Update] of [x] once for each of them, after the listeners registered
    before. *)
Theorem Add_appends_without_duplicate_check (w : World) (x : loc) :
  let l := listOfObservers (driver w) in
  let w2 := (Add x (Add x w).2).2 in
  Add x w = (Normal tt,
             mkWorld (mkDriver (name (driver w)) (status (driver w)) (l ++ [x]))
               (heap w) (trace w) (question w))
  ∧ (Add x (Add x w).2).1 = Normal tt
  ∧ listOfObservers (driver w2) = l ++ [x; x]
  ∧ (Forall (returns (heap w)) (l ++ [x]) ->
     ∃ t, Notify w2 = (Normal tt, after w2 t)
          ∧ calls_Update t
            = map (λ o, (o, driver w2)) l ++ [(x, driver w2); (x, driver w2)]).
Proof.
  intros l w2. subst l w2. rewrite !Add_eq. cbn [fst snd].
  split; [reflexivity|]. split; [reflexivity|].
  set (w2 := mkWorld _ _ _ _).
  assert (Hl : listOfObservers (driver w2)
               = listOfObservers (driver w) ++ [x; x]).
  { unfold w2. simpl. now rewrite <- app_assoc. }
  split; [exact Hl|].
  intros Hret.
  destruct (Notify_returns w2) as (t & HN & [Hu _ _]).
  { rewrite Hl. apply Forall_app in Hret as [Hpre Hx].
    apply Forall_app. split; [exact Hpre|].
    apply Forall_cons. split; [|exact Hx]. now apply Forall_inv in Hx. }
  exists (CallNotify :: t). split; [exact HN|].
  simpl. rewrite Hu, Hl, map_app. reflexivity.
Qed.

Lemma Add_appends_without_duplicate_check_witness :
  let w2 := (Add 2%nat (Add 2%nat (demo_World [0; 2]%nat)).2).2 in
  listOfObservers (driver w2) = [0; 2; 2; 2]%nat
  ∧ ∃ t, Notify w2 = (Normal tt, after w2 t)
         ∧ calls_Update t
           = [(0, driver w2); (2, driver w2); (2, driver w2); (2, driver w2)]%nat.
Proof.
  intros w2.
  destruct (Add_appends_without_duplicate_check (demo_World [0; 2]%nat) 2%nat)
    as (_ & _ & Hl & HN).
  split; [exact Hl|]. apply HN.
  apply demo_heap_returns. simpl. repeat constructor.
Defined.

(** C6 does not hold without the condition on the handlers: an instance of
    the base class is registered twice; [Notify] calls its [Update] once, not
    twice, since that call throws. *)
Lemma Add_twice_of_a_failing_listener_is_one_call :
  let w := mkWorld (new_Driver "Ted Lasso") [IDriverObserver] [] None in
  let w2 := (Add 0%nat (Add 0%nat w).2).2 in
  let d := mkDriver "Ted Lasso" "Available" [0; 0]%nat in
  driver w2 = d
  ∧ (Notify w2).1 = Throw (mkError "Update method must be implemented")
  ∧ calls_Update (trace (Notify w2).2) = [(0%nat, d)].
Proof.
  vm_compute. split; [reflexivity|]. split; reflexivity.
Qed.

(** C4. [Remove(x)] returns, and takes out of the observer array the first
    entry that is the reference [x], the other entries staying in their
    order; nothing else changes.  When no entry is [x] the world after the
    call is the world before it.  So when [x] was registered once, a second
    [Remove(x)] changes nothing. *)
Theorem Remove_removes_first_match (w : World) (x : loc) :
  (Remove x w).1 = Normal tt
  ∧ (x ∉ listOfObservers (driver w) -> Remove x w = (Normal tt, w))
  ∧ (x ∈ listOfObservers (driver w) ->
     ∃ pre post,
       listOfObservers (driver w) = pre ++ x :: post
       ∧ (x ∉ pre)
       ∧ (Remove x w).2
         = mkWorld (mkDriver (name (driver w)) (status (driver w)) (pre ++ post))
             (heap w) (trace w) (question w)
       ∧ (x ∉ post -> Remove x (Remove x w).2 = (Normal tt, (Remove x w).2))).
Proof.
  split; [|split].
  - unfold Remove, get_this, mbind, JS_bind.
    now destruct (_ >? _).
  - apply Remove_absent.
  - intros Hin.
    destruct (list_elem_of_split_l _ _ Hin) as (pre & post & Hl & Hpre).
    exists pre, post. split; [exact Hl|]. split; [exact Hpre|].
    rewrite (Remove_first pre x post w Hl Hpre). cbn [snd].
    split; [reflexivity|].
    intros Hpost. apply Remove_absent. simpl.
    rewrite not_elem_of_app. now split.
Qed.

Lemma Remove_removes_first_match_witness :
  let w := demo_World [1; 0; 2; 0]%nat in
  let x : loc := 2%nat in
  (∃ pre post,
     [1; 0; 2; 0]%nat = pre ++ x :: post
     ∧ (x ∉ pre)
     ∧ (Remove x w).2
       = mkWorld (mkDriver "Ted Lasso" "Available" (pre ++ post)) demo_heap [] None
     ∧ (x ∉ post -> Remove x (Remove x w).2 = (Normal tt, (Remove x w).2)))
  ∧ Remove 7%nat w = (Normal tt, w).
Proof.
  intros w x. split.
  - destruct (Remove_removes_first_match w 2%nat) as (_ & _ & H2).
    apply H2. simpl. do 2 right. left.
  - destruct (Remove_removes_first_match w 7%nat) as (_ & Habs & _).
    apply Habs. simpl.
    repeat (apply not_elem_of_cons; split; [discriminate|]).
    apply not_elem_of_nil.
Defined.

(** The array after some removals, computed. *)
Example Remove_examples :
  listOfObservers (driver (Remove 2%nat (demo_World [1; 0; 2; 0]%nat)).2)
  = [1; 0; 0]%nat
  ∧ listOfObservers (driver (Remove 0%nat (demo_World [1; 0; 2; 0]%nat)).2)
    = [1; 2; 0]%nat
  ∧ listOfObservers (driver (Remove 7%nat (demo_World [1; 0; 2; 0]%nat)).2)
    = [1; 0; 2; 0]%nat.
Proof. repeat split. Qed.

(** ** The callbacks and the loop *)

Lemma askForStatusChange_eq w :
  askForStatusChange w =
  (Normal tt,
   mkWorld (driver w) (heap w) (trace w ++ asks (driver w)) (Some on_answer)).
Proof.
  unfold askForStatusChange, rl_question, console_log, get_this, mbind, JS_bind.
  simpl. now rewrite <- app_assoc.
Qed.

Lemma answer_callback_yes answer w :
  toLowerCase answer = "yes" ∨ toLowerCase answer = "y" ->
  answer_callback answer w =
  (Normal tt,
   mkWorld (driver w) (heap w)
     (trace w
      ++ [ConsoleLog (nl +:+ "Question: What is the new status? ("
                      +:+ statusList (filter (λ s, s ≠ status (driver w)) statuses)
                      +:+ ")");
          Question "Enter new status: "])
     (Some (on_newStatus (filter (λ s, s ≠ status (driver w)) statuses)))).
Proof.
  intros Hyes. unfold answer_callback.
  replace (bool_decide (toLowerCase answer = "yes")
           || bool_decide (toLowerCase answer = "y")) with true.
  - unfold rl_question, console_log, get_this, mbind, JS_bind.
    simpl. now rewrite <- app_assoc.
  - symmetry. apply orb_true_iff. rewrite !bool_decide_eq_true. exact Hyes.
Qed.

Lemma answer_callback_no answer w :
  toLowerCase answer = "no" ∨ toLowerCase answer = "n" ->
  answer_callback answer w =
  (Normal tt,
   mkWorld (driver w) (heap w)
     (trace w
      ++ [ConsoleLog (nl +:+ "Thank you for confirming this driver's status. Goodbye. "
                      +:+ nl);
          Close])
     None).
Proof.
  intros Hno. unfold answer_callback.
  replace (bool_decide (toLowerCase answer = "yes")
           || bool_decide (toLowerCase answer = "y")) with false.
  - replace (bool_decide (toLowerCase answer = "no")
             || bool_decide (toLowerCase answer = "n")) with true.
    + unfold rl_close, console_log, mbind, JS_bind.
      simpl. now rewrite <- app_assoc.
    + symmetry. apply orb_true_iff. rewrite !bool_decide_eq_true. exact Hno.
  - symmetry. apply orb_false_iff. rewrite !bool_decide_eq_false.
    destruct Hno as [-> | ->]; split; discriminate.
Qed.

Lemma answer_callback_other answer w :
  toLowerCase answer ≠ "yes" -> toLowerCase answer ≠ "y" ->
  toLowerCase answer ≠ "no" -> toLowerCase answer ≠ "n" ->
  answer_callback answer w =
  (Normal tt,
   mkWorld (driver w) (heap w)
     (trace w ++ ConsoleLog ("Please answer yes or no." +:+ nl) :: asks (driver w))
     (Some on_answer)).
Proof.
  intros H1 H2 H3 H4. unfold answer_callback.
  rewrite !bool_decide_eq_false_2 by assumption.
  change (false || false) with false. cbv iota.
  unfold console_log.
  rewrite (bind_Normal _ _ _ _ _ (emit_after _ w)), askForStatusChange_eq.
  simpl. now rewrite <- app_assoc.
Qed.

Lemma newStatus_callback_invalid availableStatuses newStatus w :
  newStatus ∉ availableStatuses ->
  newStatus_callback availableStatuses newStatus w =
  (Normal tt,
   mkWorld (driver w) (heap w)
     (trace w ++ ConsoleLog ("Invalid status. Please try again." +:+ nl)
              :: asks (driver w))
     (Some on_answer)).
Proof.
  intros Hnot. unfold newStatus_callback.
  rewrite bool_decide_eq_false_2 by assumption.
  unfold console_log.
  rewrite (bind_Normal _ _ _ _ _ (emit_after _ w)), askForStatusChange_eq.
  simpl. now rewrite <- app_assoc.
Qed.

(** A status on offer is taken: [ChangeStatus] is called with it, once, and
    when that call returns the loop asks again. *)
Lemma newStatus_callback_valid availableStatuses newStatus w :
  newStatus ∈ availableStatuses ->
  ∃ c t w',
    newStatus_callback availableStatuses newStatus w = (c, w')
    ∧ driver w' = with_status newStatus (driver w)
    ∧ heap w' = heap w
    ∧ trace w' = trace w ++ ConsoleLog "" :: CallChangeStatus newStatus :: t
    ∧ calls_ChangeStatus t = []
    ∧ (c = Normal tt ∧ question w' = Some on_answer
       ∨ (∃ e, c = Throw e) ∧ question w' = question w
         ∧ ¬ Forall (returns (heap w)) (listOfObservers (driver w))).
Proof.
  intros Hin. unfold newStatus_callback.
  rewrite bool_decide_eq_true_2 by assumption.
  unfold console_log.
  rewrite (bind_Normal _ _ _ _ _ (emit_after _ w)).
  destruct (ChangeStatus_frame newStatus (after w [ConsoleLog ""]))
    as (c & t & HC & Hn & Hc & _).
  pose proof (ChangeStatus_returns newStatus (after w [ConsoleLog ""])) as Hret.
  rewrite HC in Hret. simpl in Hret.
  destruct c as [[]|e].
  - rewrite (bind_Normal _ _ _ _ _ HC).
    rewrite (bind_Normal _ _ _ _ _ (emit_after _ _)), askForStatusChange_eq.
    exists (Normal tt),
      (CallNotify :: t
       ++ ConsoleLog "" :: asks (with_status newStatus (driver w))).
    eexists. split; [reflexivity|]. simpl.
    split; [reflexivity|]. split; [reflexivity|].
    split; [rewrite <- !app_assoc; simpl; reflexivity|].
    split; [|left; now split].
    rewrite calls_ChangeStatus_app, Hc. reflexivity.
  - rewrite (bind_Throw _ _ _ _ _ HC).
    exists (Throw e), (CallNotify :: t).
    eexists. split; [reflexivity|]. simpl.
    split; [reflexivity|]. split; [reflexivity|].
    split; [rewrite <- !app_assoc; simpl; reflexivity|].
    split; [exact Hc|]. right. split; [eauto|]. split; [reflexivity|].
    intros Hall. now specialize (Hret Hall).
Qed.

Lemma on_line_closed line w : question w = None -> on_line line w = w.
Proof. intros Hq. unfold on_line. now rewrite Hq. Qed.

Lemma on_lines_closed lines w :
  question w = None -> fold_left (λ w line, on_line line w) lines w = w.
Proof.
  intros Hq. induction lines as [|line lines IH]; [reflexivity|].
  simpl. now rewrite on_line_closed.
Qed.

Lemma on_line_answer answer w :
  question w = Some on_answer ->
  on_line answer w
  = (answer_callback answer (mkWorld (driver w) (heap w) (trace w) None)).2.
Proof.
  intros Hq. unfold on_line. rewrite Hq. simpl run_callback.
  destruct (decide (toLowerCase answer = "yes")) as [Hyes|Hyes].
  { rewrite answer_callback_yes by now left. reflexivity. }
  destruct (decide (toLowerCase answer = "y")) as [Hy|Hy].
  { rewrite answer_callback_yes by now right. reflexivity. }
  destruct (decide (toLowerCase answer = "no")) as [Hno|Hno].
  { rewrite answer_callback_no by now left. reflexivity. }
  destruct (decide (toLowerCase answer = "n")) as [Hn|Hn].
  { rewrite answer_callback_no by now right. reflexivity. }
  rewrite answer_callback_other by assumption. reflexivity.
Qed.

Lemma on_line_invalid availableStatuses newStatus w :
  question w = Some (on_newStatus availableStatuses) ->
  newStatus ∉ availableStatuses ->
  on_line newStatus w
  = mkWorld (driver w) (heap w)
      (trace w ++ ConsoleLog ("Invalid status. Please try again." +:+ nl)
               :: asks (driver w))
      (Some on_answer).
Proof.
  intros Hq Hnot. unfold on_line. rewrite Hq. simpl run_callback.
  now rewrite newStatus_callback_invalid.
Qed.

Lemma current_status_not_available newStatus d :
  newStatus ∉ statuses ∨ newStatus = status d <->
  newStatus ∉ filter (λ s, s ≠ status d) statuses.
Proof.
  rewrite list_elem_of_filter. split.
  - intros [Hout| ->] [Hne Hin]; [now apply Hout|now apply Hne].
  - intros Hnot. destruct (decide (newStatus = status d)) as [Heq|Hne];
      [now right|].
    left. intros Hin. apply Hnot. now split.
Qed.

(** A status on offer arrives: [ChangeStatus] is called with it, once; the
    loop asks again when the call returns, and the process ends when it
    throws, which takes a listener whose handler does not return. *)
Lemma on_line_valid availableStatuses newStatus w :
  question w = Some (on_newStatus availableStatuses) ->
  newStatus ∈ availableStatuses ->
  ∃ t q,
    on_line newStatus w
    = mkWorld (with_status newStatus (driver w)) (heap w)
        (trace w ++ ConsoleLog "" :: CallChangeStatus newStatus :: t) q
    ∧ calls_ChangeStatus t = []
    ∧ (q = Some on_answer
       ∨ q = None ∧ ¬ Forall (returns (heap w)) (listOfObservers (driver w))).
Proof.
  intros Hq Hin. unfold on_line. rewrite Hq. simpl run_callback.
  destruct (newStatus_callback_valid availableStatuses newStatus
              (mkWorld (driver w) (heap w) (trace w) None) Hin)
    as (c & t & w' & Hcb & Hd & Hh & Ht & Hc & Hcase).
  rewrite Hcb. simpl in Hd, Hh, Ht, Hcase.
  destruct Hcase as [[-> Hq']|([e ->] & Hq' & Hnot)].
  - exists t, (Some on_answer). split; [|now split; [|left]].
    destruct w'. simpl in *. now subst.
  - exists (t ++ [Uncaught e]), None. split; [|split; [|now right]].
    + rewrite Hd, Hh, Ht, <- app_assoc. reflexivity.
    + rewrite calls_ChangeStatus_app, Hc. reflexivity.
Qed.

Lemma available_statuses_enumerated d s :
  s ∈ filter (λ s, s ≠ status d) statuses -> s ∈ statuses.
Proof. rewrite list_elem_of_filter. now intros [_ H]. Qed.

(** The program when it waits for the first line. *)
Lemma start_eq :
  start
  = mkWorld (mkDriver "Ted Lasso" "Available" [0; 1; 2]%nat) demo_heap
      (ConsoleLog
         (nl +:+ "================ Observer Pattern Demo: Trucking Company ================"
          +:+ nl)
       :: ConsoleLog ("- Created driver: Ted Lasso" +:+ nl)
       :: ConsoleLog ("- Created observers: DriverManager and DispatchTeam " +:+ nl)
       :: ConsoleLog ("- Observers added to driver " +:+ nl)
       :: asks (mkDriver "Ted Lasso" "Available" [0; 1; 2]%nat))
      (Some on_answer).
Proof. vm_compute. reflexivity. Qed.

Lemma loop_invariant_start : loop_invariant start.
Proof.
  rewrite start_eq. split; [|split]; cbn [driver status trace question].
  - unfold statuses. left.
  - constructor.
  - discriminate.
Qed.

Lemma loop_invariant_on_line line w :
  loop_invariant w -> loop_invariant (on_line line w).
Proof.
  intros (Hs & Hc & Hq).
  destruct (question w) as [[|availableStatuses]|] eqn:Hqw.
  - (* the yes/no question is pending *)
    rewrite (on_line_answer line w Hqw).
    destruct (decide (toLowerCase line = "yes" ∨ toLowerCase line = "y"))
      as [Hyes|Hnyes].
    { rewrite answer_callback_yes by assumption. cbn [snd].
      split; [exact Hs|]. split.
      - cbn [trace]. rewrite calls_ChangeStatus_app, app_nil_r. exact Hc.
      - cbn [question]. intros av [= <-] s. apply available_statuses_enumerated. }
    destruct (decide (toLowerCase line = "no" ∨ toLowerCase line = "n"))
      as [Hno|Hnno].
    { rewrite answer_callback_no by assumption. cbn [snd].
      split; [exact Hs|]. split.
      - cbn [trace]. rewrite calls_ChangeStatus_app, app_nil_r. exact Hc.
      - cbn [question]. discriminate. }
    rewrite answer_callback_other by tauto. cbn [snd].
    split; [exact Hs|]. split.
    + cbn [trace]. rewrite calls_ChangeStatus_app, app_nil_r. exact Hc.
    + cbn [question]. discriminate.
  - (* the question for the new status is pending *)
    destruct (decide (line ∈ availableStatuses)) as [Hin|Hout].
    + destruct (on_line_valid availableStatuses line w Hqw Hin)
        as (t & q & -> & Ht & Hcase).
      split; [exact (Hq availableStatuses eq_refl line Hin)|]. split.
      * cbn [trace]. rewrite calls_ChangeStatus_app. simpl. rewrite Ht.
        apply Forall_app. split; [exact Hc|].
        constructor; [exact (Hq availableStatuses eq_refl line Hin)|constructor].
      * cbn [question]. destruct Hcase as [-> | [-> _]]; discriminate.
    + rewrite (on_line_invalid availableStatuses line w Hqw Hout).
      split; [exact Hs|]. split.
      * cbn [trace]. rewrite calls_ChangeStatus_app, app_nil_r. exact Hc.
      * cbn [question]. discriminate.
  - (* closed *)
    rewrite on_line_closed by assumption.
    split; [exact Hs|]. split; [exact Hc|]. now rewrite Hqw.
Qed.

Lemma reachable_invariant w : reachable w -> loop_invariant w.
Proof.
  induction 1 as [|w line _ IH].
  - apply loop_invariant_start.
  - now apply loop_invariant_on_line.
Qed.

Lemma reachable_run lines : reachable (run lines).
Proof.
  unfold run. generalize start reachable_start.
  induction lines as [|line lines IH]; intros w Hw; [exact Hw|].
  simpl. apply IH. now constructor.
Qed.

Lemma reachable_is_run w : reachable w -> ∃ lines, w = run lines.
Proof.
  induction 1 as [|w line _ [lines ->]].
  - exists []. unfold run. simpl. reflexivity.
  - exists (lines ++ [line]). unfold run. rewrite fold_left_app. reflexivity.
Qed.

(** ** Properties of the interactive loop *)

(** C3. The status of the driver is one of the four enumerated statuses in
    every state the loop can reach: the program starts with the status
    "Available", and every call of [ChangeStatus] that has been made was
    given one of the four. *)
Theorem status_is_always_enumerated :
  status (driver start) = "Available"
  ∧ statuses = ["Available"; "En Route"; "Stopped"; "Delivered"]
  ∧ ∀ w, reachable w ->
         status (driver w) ∈ statuses
         ∧ Forall (λ s, s ∈ statuses) (calls_ChangeStatus (trace w)).
Proof.
  split; [now rewrite start_eq|]. split; [reflexivity|].
  intros w Hw. destruct (reachable_invariant w Hw) as (Hs & Hc & _).
  now split.
Qed.

Lemma status_is_always_enumerated_witness :
  let w := run ["yes"; "Stopped"; "y"; "Unloading"; "yes"; "Delivered"] in
  status (driver w) ∈ statuses
  ∧ Forall (λ s, s ∈ statuses) (calls_ChangeStatus (trace w)).
Proof.
  intros w.
  destruct status_is_always_enumerated as (_ & _ & H).
  apply H. apply reachable_run.
Defined.

(** C5. In the loop, after the answer yes (or y, in any case of letters), a
    new status that is not one of the enumerated statuses, or that is the
    current status, is refused: the program prints the invalid-status message
    and asks the yes/no question again; the driver and the observer objects
    are as they were, and [Update] was called on no listener. *)
Theorem invalid_status_reprompts (w : World) (answer newStatus : string) :
  question w = Some on_answer ->
  toLowerCase answer = "yes" ∨ toLowerCase answer = "y" ->
  newStatus ∉ statuses ∨ newStatus = status (driver w) ->
  let w' := on_line newStatus (on_line answer w) in
  driver w' = driver w
  ∧ heap w' = heap w
  ∧ question w' = Some on_answer
  ∧ trace w'
    = trace w
      ++ [ConsoleLog (nl +:+ "Question: What is the new status? ("
                      +:+ statusList (filter (λ s, s ≠ status (driver w)) statuses)
                      +:+ ")");
          Question "Enter new status: ";
          ConsoleLog ("Invalid status. Please try again." +:+ nl);
          ConsoleLog ("------ Current driver status: " +:+ status (driver w)
                      +:+ " ------ " +:+ nl);
          Question "Question: Has the driver status changed? (yes/no): "]
  ∧ calls_Update (trace w') = calls_Update (trace w)
  ∧ calls_ChangeStatus (trace w') = calls_ChangeStatus (trace w).
Proof.
  intros Hq Hyes Hbad w'. subst w'.
  rewrite (on_line_answer answer w Hq), answer_callback_yes by assumption.
  cbn [snd].
  erewrite on_line_invalid;
    [|reflexivity|now apply current_status_not_available].
  cbn [driver heap trace question asks].
  split; [reflexivity|]. split; [reflexivity|]. split; [reflexivity|].
  split; [now rewrite <- app_assoc|].
  rewrite <- app_assoc, calls_Update_app, calls_ChangeStatus_app. simpl.
  now rewrite !app_nil_r.
Qed.

Lemma invalid_status_reprompts_witness :
  let w' := on_line "InvalidStatus" (on_line "yes" start) in
  let w'' := on_line "Available" (on_line "Y" start) in
  (driver w' = driver start ∧ question w' = Some on_answer
   ∧ calls_Update (trace w') = [])
  ∧ (driver w'' = driver start ∧ question w'' = Some on_answer
     ∧ calls_Update (trace w'') = []).
Proof.
  intros w' w''. split.
  - destruct (invalid_status_reprompts start "yes" "InvalidStatus")
      as (Hd & _ & Hq & _ & Hu & _).
    + reflexivity.
    + left. reflexivity.
    + left. unfold statuses.
      repeat (apply not_elem_of_cons; split; [discriminate|]).
      apply not_elem_of_nil.
    + split; [exact Hd|]. split; [exact Hq|]. exact Hu.
  - destruct (invalid_status_reprompts start "Y" "Available")
      as (Hd & _ & Hq & _ & Hu & _).
    + reflexivity.
    + right. reflexivity.
    + right. reflexivity.
    + split; [exact Hd|]. split; [exact Hq|]. exact Hu.
Defined.

(** C8. In the loop, the answer no (or n, in any case of letters) makes the
    program print the goodbye message and close the input interface; no
    question is pending after it, the driver and the observer objects are as
    they were, and whatever lines come next, nothing is printed or changed any
    more. *)
Theorem no_answer_ends_the_loop (w : World) (answer : string) :
  question w = Some on_answer ->
  toLowerCase answer = "no" ∨ toLowerCase answer = "n" ->
  let w' := on_line answer w in
  trace w'
  = trace w
    ++ [ConsoleLog (nl +:+ "Thank you for confirming this driver's status. Goodbye. "
                    +:+ nl);
        Close]
  ∧ question w' = None
  ∧ driver w' = driver w
  ∧ heap w' = heap w
  ∧ ∀ lines, fold_left (λ w line, on_line line w) lines w' = w'.
Proof.
  intros Hq Hno w'. subst w'.
  rewrite (on_line_answer answer w Hq), answer_callback_no by assumption.
  cbn [snd trace question driver heap].
  split; [reflexivity|]. split; [reflexivity|].
  split; [reflexivity|]. split; [reflexivity|].
  intros lines. now apply on_lines_closed.
Qed.

Lemma no_answer_ends_the_loop_witness :
  question (on_line "No" start) = None
  ∧ driver (on_line "No" start) = driver start
  ∧ fold_left (λ w line, on_line line w) ["yes"; "En Route"] (on_line "No" start)
    = on_line "No" start
  ∧ question (on_line "N" (run ["yes"; "Stopped"])) = None.
Proof.
  destruct (no_answer_ends_the_loop start "No") as (_ & Hq & Hd & _ & Hstop).
  - reflexivity.
  - left. reflexivity.
  - split; [exact Hq|]. split; [exact Hd|].
    split; [exact (Hstop ["yes"; "En Route"])|].
    destruct (no_answer_ends_the_loop (run ["yes"; "Stopped"]) "N")
      as (_ & Hq' & _).
    + vm_compute. reflexivity.
    + right. reflexivity.
    + exact Hq'.
Defined.

(** C10. The answer to the yes/no question is compared in lower case: when
    its lower-case form is yes or y the program asks for the new status (among
    the enumerated statuses other than the current one); when it is no or n
    the program says goodbye and closes the interface; for any other answer it
    prints "Please answer yes or no." and asks the yes/no question again.  In
    the three cases the driver and the observer objects are as they were. *)
Theorem answer_is_compared_in_lower_case (w : World) (answer : string) :
  question w = Some on_answer ->
  let a := toLowerCase answer in
  let w' := on_line answer w in
  (a = "yes" ∨ a = "y" ->
   w' = mkWorld (driver w) (heap w)
          (trace w
           ++ [ConsoleLog (nl +:+ "Question: What is the new status? ("
                           +:+ statusList
                                 (filter (λ s, s ≠ status (driver w)) statuses)
                           +:+ ")");
               Question "Enter new status: "])
          (Some (on_newStatus (filter (λ s, s ≠ status (driver w)) statuses))))
  ∧ (a = "no" ∨ a = "n" ->
     w' = mkWorld (driver w) (heap w)
            (trace w
             ++ [ConsoleLog (nl +:+ "Thank you for confirming this driver's status. Goodbye. "
                             +:+ nl);
                 Close])
            None)
  ∧ (a ≠ "yes" ∧ a ≠ "y" ∧ a ≠ "no" ∧ a ≠ "n" ->
     w' = mkWorld (driver w) (heap w)
            (trace w
             ++ [ConsoleLog ("Please answer yes or no." +:+ nl);
                 ConsoleLog ("------ Current driver status: "
                             +:+ status (driver w) +:+ " ------ " +:+ nl);
                 Question "Question: Has the driver status changed? (yes/no): "])
            (Some on_answer)).
Proof.
  intros Hq a w'. subst a w'. rewrite (on_line_answer answer w Hq).
  split; [|split].
  - intros Hyes. now rewrite answer_callback_yes.
  - intros Hno. now rewrite answer_callback_no.
  - intros (H1 & H2 & H3 & H4). now rewrite answer_callback_other.
Qed.

Lemma answer_is_compared_in_lower_case_witness :
  question (on_line "YES" start)
  = Some (on_newStatus ["En Route"; "Stopped"; "Delivered"])
  ∧ question (on_line "Y" start)
    = Some (on_newStatus ["En Route"; "Stopped"; "Delivered"])
  ∧ question (on_line "nO" start) = None
  ∧ question (on_line "N" start) = None
  ∧ (question (on_line "Maybe" start) = Some on_answer
     ∧ driver (on_line "Maybe" start) = driver start).
Proof.
  assert (Hq : question start = Some on_answer) by reflexivity.
  split.
  { destruct (answer_is_compared_in_lower_case start "YES" Hq) as (H & _ & _).
    rewrite H; [reflexivity|left; reflexivity]. }
  split.
  { destruct (answer_is_compared_in_lower_case start "Y" Hq) as (H & _ & _).
    rewrite H; [reflexivity|right; reflexivity]. }
  split.
  { destruct (answer_is_compared_in_lower_case start "nO" Hq) as (_ & H & _).
    rewrite H; [reflexivity|left; reflexivity]. }
  split.
  { destruct (answer_is_compared_in_lower_case start "N" Hq) as (_ & H & _).
    rewrite H; [reflexivity|right; reflexivity]. }
  destruct (answer_is_compared_in_lower_case start "Maybe" Hq) as (_ & _ & H).
  rewrite H; [split; reflexivity|].
  repeat split; discriminate.
Defined.

(** ** The demo as a whole *)

(** The listeners of the demo are the three observers created at startup, in
    the order of their registration; their handlers return, so the loop never
    ends by an exception: it ends when the interface is closed. *)
Lemma demo_invariant_on_line line w :
  demo_invariant w -> demo_invariant (on_line line w).
Proof.
  intros (Hh & Hl & Hn & Hend).
  destruct (question w) as [[|availableStatuses]|] eqn:Hqw.
  - rewrite (on_line_answer line w Hqw).
    destruct (decide (toLowerCase line = "yes" ∨ toLowerCase line = "y"))
      as [Hyes|Hnyes].
    { rewrite answer_callback_yes by assumption.
      split; [exact Hh|]. split; [exact Hl|]. split; [exact Hn|]. discriminate. }
    destruct (decide (toLowerCase line = "no" ∨ toLowerCase line = "n"))
      as [Hno|Hnno].
    { rewrite answer_callback_no by assumption.
      split; [exact Hh|]. split; [exact Hl|]. split; [exact Hn|].
      intros _. cbn [snd trace]. eexists (trace w ++ [_]).
      now rewrite <- app_assoc. }
    rewrite answer_callback_other by tauto.
    split; [exact Hh|]. split; [exact Hl|]. split; [exact Hn|]. discriminate.
  - destruct (decide (line ∈ availableStatuses)) as [Hin|Hout].
    + destruct (on_line_valid availableStatuses line w Hqw Hin)
        as (t & q & -> & _ & Hcase).
      split; [exact Hh|]. split; [exact Hl|]. split; [exact Hn|].
      cbn [question]. destruct Hcase as [-> | [_ Hnot]]; [discriminate|].
      exfalso. apply Hnot. rewrite Hh, Hl.
      apply demo_heap_returns. repeat constructor.
    + rewrite (on_line_invalid availableStatuses line w Hqw Hout).
      split; [exact Hh|]. split; [exact Hl|]. split; [exact Hn|]. discriminate.
  - rewrite on_line_closed by assumption.
    split; [exact Hh|]. split; [exact Hl|]. split; [exact Hn|].
    intros _. now apply Hend.
Qed.

Lemma reachable_demo_invariant w : reachable w -> demo_invariant w.
Proof.
  induction 1 as [|w line _ IH].
  - rewrite start_eq. repeat split. discriminate.
  - now apply demo_invariant_on_line.
Qed.

(** The scenario of the demo: the status is "Available" at first; the user
    answers yes and En Route; the three listeners are called once each, in the
    order of their registration, and each is given the driver with the status
    "En Route". *)
Example run_yes_En_Route :
  let w := run ["yes"; "En Route"] in
  let d := mkDriver "Ted Lasso" "En Route" [0; 1; 2]%nat in
  driver w = d
  ∧ calls_Update (trace w) = [(0, d); (1, d); (2, d)]%nat
  ∧ count_Notify (trace w) = 1%nat
  ∧ question w = Some on_answer.
Proof. vm_compute. repeat split. Qed.

(** * Further properties *)

(** ** Registration *)

Lemma without_first_absent x l : x ∉ l -> without_first x l = l.
Proof.
  induction l as [|y l IH]; intros Hx; [reflexivity|].
  apply not_elem_of_cons in Hx as [Hne Hx]. simpl.
  destruct (decide (y = x)); [congruence|]. now rewrite IH.
Qed.

Lemma without_first_first pre x post :
  x ∉ pre -> without_first x (pre ++ x :: post) = pre ++ post.
Proof.
  induction pre as [|y pre IH]; intros Hx; simpl.
  - destruct (decide (x = x)); [reflexivity|congruence].
  - apply not_elem_of_cons in Hx as [Hne Hx].
    destruct (decide (y = x)); [congruence|]. now rewrite IH.
Qed.

(** [Remove], whatever the array: it returns, and the array is left without
    its first entry [x]. *)
Lemma Remove_eq x w :
  Remove x w
  = (Normal tt,
     mkWorld (with_listOfObservers
                (without_first x (listOfObservers (driver w))) (driver w))
       (heap w) (trace w) (question w)).
Proof.
  destruct (decide (x ∈ listOfObservers (driver w))) as [Hin|Hout].
  - destruct (list_elem_of_split_l _ _ Hin) as (pre & post & Hl & Hpre).
    rewrite (Remove_first pre x post w Hl Hpre), Hl.
    now rewrite without_first_first.
  - rewrite (Remove_absent x w Hout), without_first_absent by assumption.
    now destruct w as [[] ? ? ?].
Qed.

Lemma without_first_snoc_other x y l :
  x ≠ y -> without_first x (l ++ [y]) = without_first x l ++ [y].
Proof.
  intros Hne. induction l as [|z l IH]; simpl.
  - destruct (decide (y = x)); [congruence|reflexivity].
  - destruct (decide (z = x)); [reflexivity|]. now rewrite IH.
Qed.

Lemma without_first_comm x y l :
  without_first x (without_first y l) = without_first y (without_first x l).
Proof.
  induction l as [|z l IH]; [reflexivity|]. simpl.
  destruct (decide (z = y)) as [Hy|Hy], (decide (z = x)) as [Hx|Hx]; simpl.
  - congruence.
  - destruct (decide (z = x)); [congruence|].
    destruct (decide (z = y)); [reflexivity|congruence].
  - destruct (decide (z = y)); [congruence|].
    destruct (decide (z = x)); [reflexivity|congruence].
  - destruct (decide (z = x)); [congruence|].
    destruct (decide (z = y)); [congruence|]. now rewrite IH.
Qed.


(** X1. [Remove(x)] after [Add(x)]: when [x] was not registered, the two
    calls leave the world as it was; when [x] was registered already, it is
    the earlier entry that goes, so [x] ends up last. *)
Theorem Remove_after_Add (w : World) (x : loc) :
  let w2 := (Remove x (Add x w).2).2 in
  (x ∉ listOfObservers (driver w) -> w2 = w)
  ∧ (∀ pre post,
       listOfObservers (driver w) = pre ++ x :: post -> x ∉ pre ->
       listOfObservers (driver w2) = pre ++ post ++ [x]).
Proof.
  intros w2. subst w2. rewrite Add_eq, Remove_eq. cbn [snd]. split.
  - intros Hx. simpl.
    replace (listOfObservers (driver w) ++ [x])
      with (listOfObservers (driver w) ++ x :: []) by reflexivity.
    rewrite without_first_first, app_nil_r by assumption.
    now destruct w as [[] ? ? ?].
  - intros pre post Hl Hpre. simpl. rewrite Hl, <- app_assoc. simpl.
    now rewrite without_first_first.
Qed.

Lemma Remove_after_Add_witness :
  (Remove 2%nat (Add 2%nat (demo_World [0; 1]%nat)).2).2 = demo_World [0; 1]%nat
  ∧ listOfObservers
      (driver (Remove 0%nat (Add 0%nat (demo_World [1; 0; 2]%nat)).2).2)
    = [1%nat] ++ [2%nat] ++ [0%nat].
Proof.
  split.
  - destruct (Remove_after_Add (demo_World [0; 1]%nat) 2%nat) as [H _].
    apply H. simpl.
    repeat (apply not_elem_of_cons; split; [discriminate|]).
    apply not_elem_of_nil.
  - destruct (Remove_after_Add (demo_World [1; 0; 2]%nat) 0%nat) as [_ H].
    apply (H [1%nat] [2%nat] eq_refl).
    apply not_elem_of_cons; split; [discriminate|]. apply not_elem_of_nil.
Defined.

(** X2. Two calls of [Remove] give the same world in either order. *)
Theorem Remove_Remove_comm (w : World) (x y : loc) :
  Remove x (Remove y w).2 = Remove y (Remove x w).2.
Proof.
  rewrite !Remove_eq. simpl. now rewrite without_first_comm.
Qed.

(** X3. [Add] of one listener and [Remove] of another give the same world in
    either order. *)
Theorem Add_Remove_comm (w : World) (x y : loc) :
  x ≠ y -> Remove x (Add y w).2 = Add y (Remove x w).2.
Proof.
  intros Hne. rewrite !Add_eq, !Remove_eq. simpl.
  now rewrite without_first_snoc_other.
Qed.

Lemma Add_Remove_comm_witness :
  Remove 0%nat (Add 2%nat (demo_World [0; 1; 0]%nat)).2
  = Add 2%nat (Remove 0%nat (demo_World [0; 1; 0]%nat)).2.
Proof.
  apply (Add_Remove_comm (demo_World [0; 1; 0]%nat) 0%nat 2%nat). discriminate.
Defined.

Lemma without_first_once x l :
  (length (filter (λ y, y = x) l) <= 1)%nat -> x ∉ without_first x l.
Proof.
  induction l as [|y l IH]; intros Hlen; simpl.
  - apply not_elem_of_nil.
  - rewrite filter_cons in Hlen.
    destruct (decide (y = x)) as [->|Hne].
    + simpl in Hlen. intros Hin.
      assert (Hx : x ∈ filter (λ y, y = x) l)
        by (apply list_elem_of_filter; now split).
      destruct (filter (λ y, y = x) l); [now apply elem_of_nil in Hx|].
      simpl in Hlen. lia.
    + apply not_elem_of_cons. split; [congruence|]. now apply IH.
Qed.

(** X4. A listener that was registered once at most and is removed is not
    called any more: whatever the other listeners do, the calls of [Update]
    that a later [ChangeStatus] makes are on other listeners. *)
Theorem removed_listener_is_not_notified (w : World) (x : loc) (s : string) :
  (length (filter (λ y, y = x) (listOfObservers (driver w))) <= 1)%nat ->
  let w1 := (Remove x w).2 in
  ∃ t, trace (ChangeStatus s w1).2 = trace w1 ++ t
       ∧ ∀ d, (x, d) ∉ calls_Update t.
Proof.
  intros Honce w1. subst w1. rewrite Remove_eq. cbn [snd].
  set (w1 := mkWorld _ _ _ _).
  destruct (ChangeStatus_frame s w1) as (c & t & HC & _ & _ & Hp & _).
  exists (CallChangeStatus s :: CallNotify :: t). rewrite HC.
  split; [reflexivity|].
  intros d Hin. simpl in Hin.
  destruct Hp as [rest Hrest].
  assert (Hmap : (x, d) ∈ map (λ o, (o, with_status s (driver w1)))
                          (listOfObservers (driver w1))).
  { rewrite Hrest. apply elem_of_app. now left. }
  apply list_elem_of_In, in_map_iff in Hmap as (o & [= -> _] & Ho).
  apply list_elem_of_In in Ho. revert Ho. now apply without_first_once.
Qed.

Lemma removed_listener_is_not_notified_witness :
  let w1 := (Remove 1%nat (mkWorld (mkDriver "Ted Lasso" "Available" [0; 1; 2; 0]%nat)
                             failing_heap [] None)).2 in
  ∃ t, trace (ChangeStatus "Stopped" w1).2 = trace w1 ++ t
       ∧ ∀ d, (1%nat, d) ∉ calls_Update t.
Proof.
  apply (removed_listener_is_not_notified
           (mkWorld (mkDriver "Ted Lasso" "Available" [0; 1; 2; 0]%nat)
              failing_heap [] None) 1%nat "Stopped").
  vm_compute. lia.
Defined.

(** ** What the observers print *)

Lemma printed_app t u : printed (t ++ u) = printed t ++ printed u.
Proof.
  induction t as [|e t IH]; [reflexivity|].
  destruct e; simpl; rewrite IH; reflexivity.
Qed.

(** A handler that returns is the one of a [DriverManager] or of the
    [DispatchTeam]: it prints one line. *)
Lemma call_Update_one_line w o :
  returns (heap w) o ->
  ∃ line, call_Update o w
          = (Normal tt, after w [CallUpdate o (driver w); ConsoleLog line]).
Proof.
  intros (obj & Hobj & Hret).
  unfold call_Update, get_this, get_heap, mbind, JS_bind. rewrite Hobj.
  destruct obj as [|n|].
  - specialize (Hret (driver w) w). discriminate Hret.
  - eexists. simpl. unfold after, console_log, emit. simpl.
    now rewrite <- app_assoc.
  - eexists. simpl. unfold after, console_log, emit. simpl.
    now rewrite <- app_assoc.
Qed.

Lemma uncaught_app t u : uncaught (t ++ u) = uncaught t ++ uncaught u.
Proof.
  induction t as [|e t IH]; [reflexivity|].
  destruct e; simpl; rewrite IH; reflexivity.
Qed.

#[local] Hint Rewrite printed_app uncaught_app : calls.

Lemma reads_app t u updates updates' notifies notifies' changes changes'
    lines lines' :
  reads t updates notifies changes lines ->
  reads u updates' notifies' changes' lines' ->
  reads (t ++ u) (updates ++ updates') (notifies + notifies')
    (changes ++ changes') (lines + lines').
Proof.
  intros [[Hu Hn Hc] Hp He] [[Hu' Hn' Hc'] Hp' He'].
  split; [split|..]; autorewrite with calls.
  - now rewrite Hu, Hu'.
  - now rewrite Hn, Hn'.
  - now rewrite Hc, Hc'.
  - rewrite length_app. now rewrite Hp, Hp'.
  - now rewrite He, He'.
Qed.

Lemma for_of_call_Update_reads l w :
  (∀ o, o ∈ l -> returns (heap w) o) ->
  ∃ t, for_of l call_Update w = (Normal tt, after w t)
       ∧ reads t (map (λ o, (o, driver w)) l) 0 [] (length l).
Proof.
  revert w. induction l as [|o l IH]; intros w Hl.
  - exists []. split; [simpl; now rewrite after_nil|now repeat split].
  - destruct (call_Update_one_line w o) as (line & H1); [apply Hl; left|].
    destruct (IH (after w [CallUpdate o (driver w); ConsoleLog line]))
      as (t & H2 & Ht); [intros o' Ho'; apply Hl; now right|].
    exists ([CallUpdate o (driver w); ConsoleLog line] ++ t). split.
    + simpl for_of. rewrite (bind_Normal _ _ _ _ _ H1), H2.
      now rewrite after_after.
    + apply (reads_app _ _ [(o, driver w)] _ 0 0 [] [] 1 _);
        [now repeat split|exact Ht].
Qed.

(** X5. When the handlers of the registered listeners return, [Notify] shows
    its two header lines and then one line for each entry of the observer
    array, and nothing else. *)
Theorem Notify_prints_one_line_per_listener (w : World) :
  Forall (returns (heap w)) (listOfObservers (driver w)) ->
  ∃ t lines,
    Notify w = (Normal tt, after w t)
    ∧ printed t
      = "UPDATE: Status has been changed." :: "Notify Observers:" :: lines
    ∧ length lines = length (listOfObservers (driver w)).
Proof.
  intros Hret. rewrite Notify_unfold.
  set (banner := [CallNotify; _; _]).
  destruct (for_of_call_Update_reads (listOfObservers (driver w))
              (after w banner)) as (t & Ht & [_ Hlen _]).
  { intros o Ho. rewrite Forall_forall in Hret. now apply Hret. }
  exists (banner ++ t), (printed t). split; [|split].
  - rewrite Ht, after_after. reflexivity.
  - rewrite printed_app. reflexivity.
  - exact Hlen.
Qed.

Lemma Notify_prints_one_line_per_listener_witness :
  ∃ t lines,
    Notify (demo_World [2; 0; 2]%nat) = (Normal tt, after (demo_World [2; 0; 2]%nat) t)
    ∧ printed t
      = "UPDATE: Status has been changed." :: "Notify Observers:" :: lines
    ∧ length lines = 3%nat.
Proof.
  apply (Notify_prints_one_line_per_listener (demo_World [2; 0; 2]%nat)).
  apply demo_heap_returns. simpl. repeat constructor.
Defined.

(** ** The question for the new status *)

(** X6. The list of statuses as the question shows it: a single status is
    shown alone; two or more are separated by commas, with "or" before the
    last; of no status at all the text is ", or undefined". *)
Theorem statusList_format :
  (∀ only, statusList [only] = only)
  ∧ (∀ first init last,
       statusList ((first :: init) ++ [last])
       = join ", " (first :: init) +:+ ", or " +:+ last)
  ∧ statusList [] = ", or undefined".
Proof.
  split; [|split].
  - intros only. reflexivity.
  - intros first init last. unfold statusList.
    rewrite bool_decide_eq_false_2
      by (simpl; rewrite length_app; simpl; lia).
    unfold slice_0_m1, at_index.
    rewrite length_app. simpl length.
    replace (S (length init) + 1 - 1)%nat with (length (first :: init))
      by (simpl; lia).
    rewrite take_app_length.
    replace (Z.of_nat (S (length init) + 1) - 1)
      with (Z.of_nat (length (first :: init))) by (simpl length; lia).
    destruct (Z.leb_spec 0 (Z.of_nat (length (first :: init)))) as [_|H]; [|lia].
    destruct (Z.ltb_spec (Z.of_nat (length (first :: init)))
                (Z.of_nat (S (length init) + 1))) as [_|H];
      [|simpl length in H; lia].
    cbn [andb]. rewrite Nat2Z.id.
    rewrite lookup_app_r by reflexivity.
    rewrite Nat.sub_diag. reflexivity.
  - reflexivity.
Qed.

(** ** A status change in the loop *)

Lemma ChangeStatus_reads s w :
  Forall (returns (heap w)) (listOfObservers (driver w)) ->
  ∃ t, ChangeStatus s w
       = (Normal tt,
          mkWorld (with_status s (driver w)) (heap w) (trace w ++ t)
            (question w))
       ∧ reads t
           (map (λ o, (o, with_status s (driver w))) (listOfObservers (driver w)))
           1 [s] (2 + length (listOfObservers (driver w))).
Proof.
  intros Hret. rewrite ChangeStatus_unfold, Notify_unfold.
  set (w1 := mkWorld _ _ _ _).
  set (banner := [CallNotify; _; _]).
  destruct (for_of_call_Update_reads (listOfObservers (driver w1))
              (after w1 banner)) as (t & Ht & Hreads).
  { intros o Ho. rewrite Forall_forall in Hret. now apply Hret. }
  exists ((CallChangeStatus s :: banner) ++ t). split.
  - rewrite Ht. unfold after, w1. simpl. now rewrite <- !app_assoc.
  - apply (reads_app _ _ [] _ 1 0 [s] [] 2 _); [now repeat split|exact Hreads].
Qed.

(** A status on offer arrives and the handlers of the listeners return: the
    status is set, every listener is called, and the loop asks again. *)
Lemma on_line_valid_reads availableStatuses newStatus w :
  question w = Some (on_newStatus availableStatuses) ->
  newStatus ∈ availableStatuses ->
  Forall (returns (heap w)) (listOfObservers (driver w)) ->
  ∃ t, on_line newStatus w
       = mkWorld (with_status newStatus (driver w)) (heap w) (trace w ++ t)
           (Some on_answer)
       ∧ reads t
           (map (λ o, (o, with_status newStatus (driver w)))
              (listOfObservers (driver w)))
           1 [newStatus] (5 + length (listOfObservers (driver w))).
Proof.
  intros Hq Hin Hret. unfold on_line. rewrite Hq. simpl run_callback.
  unfold newStatus_callback. rewrite bool_decide_eq_true_2 by assumption.
  set (w0 := mkWorld _ _ _ None). unfold console_log.
  rewrite (bind_Normal _ _ _ _ _ (emit_after _ w0)).
  destruct (ChangeStatus_reads newStatus (after w0 [ConsoleLog ""]) Hret)
    as (t & HC & Hreads).
  rewrite (bind_Normal _ _ _ _ _ HC).
  rewrite (bind_Normal _ _ _ _ _ (emit_after _ _)), askForStatusChange_eq.
  exists (([ConsoleLog ""] ++ t)
          ++ ConsoleLog "" :: asks (with_status newStatus (driver w))).
  split.
  - simpl. now rewrite <- !app_assoc.
  - replace (5 + length (listOfObservers (driver w)))%nat
      with ((1 + (2 + length (listOfObservers (driver w)))) + 2)%nat by lia.
    rewrite <- (app_nil_r (map _ _)).
    apply (reads_app _ _ _ [] 1 0 [newStatus] [] _ 2); [|now repeat split].
    apply (reads_app _ _ [] _ 0 1 [] [newStatus] 1 _); [now repeat split|].
    exact Hreads.
Qed.

(** X7. In the loop, after the answer yes (or y), one of the enumerated
    statuses other than the current one is taken: when the handlers of the
    registered listeners return, the status of the driver becomes the new
    status, [ChangeStatus] and [Notify] are called once, every registered
    listener is called once, in the order of registration, with the driver
    that has the new status, and the yes/no question is asked again. *)
Theorem valid_status_is_applied (w : World) (answer newStatus : string) :
  question w = Some on_answer ->
  toLowerCase answer = "yes" ∨ toLowerCase answer = "y" ->
  newStatus ∈ statuses ->
  newStatus ≠ status (driver w) ->
  Forall (returns (heap w)) (listOfObservers (driver w)) ->
  let w' := on_line newStatus (on_line answer w) in
  let d := mkDriver (name (driver w)) newStatus (listOfObservers (driver w)) in
  driver w' = d
  ∧ heap w' = heap w
  ∧ question w' = Some on_answer
  ∧ ∃ t, trace w' = trace w ++ t
         ∧ calls_ChangeStatus t = [newStatus]
         ∧ count_Notify t = 1%nat
         ∧ calls_Update t = map (λ o, (o, d)) (listOfObservers (driver w))
         ∧ uncaught t = [].
Proof.
  intros Hq Hyes Hin Hne Hret w' d. subst w' d.
  rewrite (on_line_answer answer w Hq), answer_callback_yes by assumption.
  cbn [snd]. set (w1 := mkWorld _ _ _ _).
  destruct (on_line_valid_reads
              (filter (λ s, s ≠ status (driver w)) statuses) newStatus w1)
    as (t & -> & [[Hu Hn Hc] _ He]).
  { reflexivity. }
  { apply list_elem_of_filter. now split. }
  { exact Hret. }
  cbn [driver heap question trace]. unfold w1. cbn [driver heap trace].
  split; [reflexivity|]. split; [reflexivity|]. split; [reflexivity|].
  eexists (_ ++ t). split; [now rewrite <- app_assoc|].
  autorewrite with calls. simpl. rewrite Hu, Hn, Hc, He.
  repeat split.
Qed.

Lemma valid_status_is_applied_witness :
  let w' := on_line "Stopped" (on_line "Yes" start) in
  let d := mkDriver "Ted Lasso" "Stopped" [0; 1; 2]%nat in
  driver w' = d
  ∧ question w' = Some on_answer
  ∧ ∃ t, trace w' = trace start ++ t
         ∧ calls_ChangeStatus t = ["Stopped"]
         ∧ calls_Update t = [(0, d); (1, d); (2, d)]%nat.
Proof.
  intros w' d. subst w' d.
  destruct (valid_status_is_applied start "Yes" "Stopped")
    as (Hd & _ & Hq & t & Ht & Hc & _ & Hu & _).
  - reflexivity.
  - left. reflexivity.
  - unfold statuses. do 2 right. left.
  - rewrite start_eq. discriminate.
  - rewrite start_eq. apply demo_heap_returns. simpl. repeat constructor.
  - split; [rewrite Hd, start_eq; reflexivity|]. split; [exact Hq|].
    exists t. split; [exact Ht|]. split; [exact Hc|].
    rewrite Hu, start_eq. reflexivity.
Defined.

(** ** The history of the demo *)

Lemma no_repeat_snoc previous l s :
  no_repeat previous l -> default previous (last l) ≠ s ->
  no_repeat previous (l ++ [s]).
Proof.
  revert previous. induction l as [|x l IH]; intros previous Hl Hs; simpl.
  - now split.
  - destruct Hl as [Hx Hl]. split; [exact Hx|]. apply IH; [exact Hl|].
    rewrite last_cons in Hs. now destruct (last l).
Qed.

(** One line of input in the demo: either nothing is called and the status
    stays, or the line is a status other than the current one, it becomes the
    status, and the three observers are called with it. *)
Lemma demo_on_line line w :
  demo_invariant w ->
  (∀ av, question w = Some (on_newStatus av) ->
         av = filter (λ s, s ≠ status (driver w)) statuses) ->
  (∀ av, question (on_line line w) = Some (on_newStatus av) ->
         av = filter (λ s, s ≠ status (driver (on_line line w))) statuses)
  ∧ ∃ t, trace (on_line line w) = trace w ++ t
         ∧ uncaught t = []
         ∧ (status (driver (on_line line w)) = status (driver w)
            ∧ calls_ChangeStatus t = [] ∧ calls_Update t = []
            ∧ count_Notify t = 0%nat
            ∨ line ≠ status (driver w)
              ∧ status (driver (on_line line w)) = line
              ∧ calls_ChangeStatus t = [line]
              ∧ calls_Update t
                = map (λ o, (o, mkDriver "Ted Lasso" line [0; 1; 2]%nat))
                    [0; 1; 2]%nat
              ∧ count_Notify t = 1%nat).
Proof.
  intros (Hh & Hl & Hn & _) Hav.
  destruct (question w) as [[|availableStatuses]|] eqn:Hqw.
  - rewrite (on_line_answer line w Hqw).
    destruct (decide (toLowerCase line = "yes" ∨ toLowerCase line = "y"))
      as [Hyes|Hnyes].
    { rewrite answer_callback_yes by assumption. cbn [snd].
      split; [now intros av [= <-]|].
      eexists. split; [reflexivity|]. split; [reflexivity|]. left.
      now repeat split. }
    destruct (decide (toLowerCase line = "no" ∨ toLowerCase line = "n"))
      as [Hno|Hnno].
    { rewrite answer_callback_no by assumption. cbn [snd].
      split; [discriminate|].
      eexists. split; [reflexivity|]. split; [reflexivity|]. left.
      now repeat split. }
    rewrite answer_callback_other by tauto. cbn [snd].
    split; [discriminate|].
    eexists. split; [reflexivity|]. split; [reflexivity|]. left.
    now repeat split.
  - destruct (decide (line ∈ availableStatuses)) as [Hin|Hout].
    + destruct (on_line_valid_reads availableStatuses line w Hqw Hin)
        as (t & -> & [[Hu Hn' Hc] _ He]).
      { rewrite Hh, Hl. apply demo_heap_returns. repeat constructor. }
      split; [discriminate|].
      exists t. split; [reflexivity|]. split; [exact He|]. right.
      rewrite (Hav availableStatuses eq_refl) in Hin.
      apply list_elem_of_filter in Hin as [Hne _].
      split; [exact Hne|]. split; [reflexivity|]. split; [exact Hc|].
      split; [|exact Hn'].
      rewrite Hu, Hl. unfold with_status. now rewrite Hn, Hl.
    + rewrite (on_line_invalid availableStatuses line w Hqw Hout).
      split; [discriminate|].
      eexists. split; [reflexivity|]. split; [reflexivity|]. left.
      now repeat split.
  - rewrite on_line_closed by assumption.
    split; [now rewrite Hqw|].
    exists []. rewrite app_nil_r. split; [reflexivity|].
    split; [reflexivity|]. left. now repeat split.
Qed.

Lemma history_invariant_on_line line w :
  demo_invariant w -> history_invariant w -> history_invariant (on_line line w).
Proof.
  intros Hdemo (He & Hu & Hn & Hs & Hr & Hav).
  destruct (demo_on_line line w Hdemo Hav) as (Hav' & t & Ht & He' & Hcase).
  destruct Hcase as [(Hs' & Hc' & Hu' & Hn')|(Hne & Hs' & Hc' & Hu' & Hn')];
    unfold history_invariant; rewrite Ht; autorewrite with calls;
    rewrite He, He', Hc', Hu', Hn', Hs'.
  - rewrite !app_nil_r, Nat.add_0_r.
    split; [reflexivity|]. split; [exact Hu|]. split; [exact Hn|].
    split; [exact Hs|]. split; [exact Hr|].
    intros av Hq. specialize (Hav' av Hq). now rewrite Hs' in Hav'.
  - rewrite flat_map_app, length_app, last_snoc. simpl.
    split; [reflexivity|]. split; [now rewrite Hu|].
    split; [now rewrite Hn|]. split; [reflexivity|]. split.
    + apply no_repeat_snoc; [exact Hr|]. rewrite <- Hs. congruence.
    + intros av Hq. specialize (Hav' av Hq). now rewrite Hs' in Hav'.
Qed.

Lemma reachable_history_invariant w : reachable w -> history_invariant w.
Proof.
  induction 1 as [|w line Hw IH].
  - rewrite start_eq. repeat split. discriminate.
  - apply history_invariant_on_line; [|exact IH].
    now apply reachable_demo_invariant.
Qed.

(** X8. The demo never ends by an exception, and nothing in the loop touches
    the registration: in every state of the loop no exception was left
    uncaught, the observers are the three created at startup, registered in
    the order of startup, the driver has its name, and no question is pending
    only when the last thing done was to close the interface. *)
Theorem demo_ends_only_by_goodbye (w : World) :
  reachable w ->
  uncaught (trace w) = []
  ∧ heap w = [DriverManager "Rebecca"; DriverManager "Higgins"; DispatchTeam]
  ∧ listOfObservers (driver w) = [0; 1; 2]%nat
  ∧ name (driver w) = "Ted Lasso"
  ∧ (question w = None -> ∃ t, trace w = t ++ [Close]).
Proof.
  intros Hw.
  destruct (reachable_demo_invariant w Hw) as (Hh & Hl & Hn & Hend).
  destruct (reachable_history_invariant w Hw) as (He & _).
  split; [exact He|]. split; [exact Hh|]. split; [exact Hl|].
  split; [exact Hn|exact Hend].
Qed.

Lemma demo_ends_only_by_goodbye_witness :
  let w := run ["yes"; "Delivered"; "what?"; "n"; "yes"] in
  uncaught (trace w) = []
  ∧ listOfObservers (driver w) = [0; 1; 2]%nat
  ∧ (question w = None -> ∃ t, trace w = t ++ [Close]).
Proof.
  intros w.
  destruct (demo_ends_only_by_goodbye w) as (He & _ & Hl & _ & Hend).
  - apply reachable_run.
  - split; [exact He|]. split; [exact Hl|exact Hend].
Defined.

(** X9. In the demo every change of status is seen by the three observers and
    nothing else is: the calls of [Update] made so far are, for each call of
    [ChangeStatus] in turn, one call of each of the three observers, in the
    order of their registration, with the driver that has the new status; and
    [Notify] was called once for each call of [ChangeStatus]. *)
Theorem every_change_notifies_the_three_observers (w : World) :
  reachable w ->
  calls_Update (trace w)
  = flat_map (λ s, map (λ o, (o, mkDriver "Ted Lasso" s [0; 1; 2]%nat))
                   [0; 1; 2]%nat)
      (calls_ChangeStatus (trace w))
  ∧ count_Notify (trace w) = length (calls_ChangeStatus (trace w)).
Proof.
  intros Hw.
  destruct (reachable_history_invariant w Hw) as (_ & Hu & Hn & _).
  split; [exact Hu|exact Hn].
Qed.

Lemma every_change_notifies_the_three_observers_witness :
  let w := run ["y"; "En Route"; "yes"; "En Route"; "yes"; "Stopped"] in
  let d s := mkDriver "Ted Lasso" s [0; 1; 2]%nat in
  calls_ChangeStatus (trace w) = ["En Route"; "Stopped"]
  ∧ calls_Update (trace w)
    = [(0, d "En Route"); (1, d "En Route"); (2, d "En Route");
       (0, d "Stopped"); (1, d "Stopped"); (2, d "Stopped")]%nat.
Proof.
  intros w d.
  assert (Hc : calls_ChangeStatus (trace w) = ["En Route"; "Stopped"])
    by (vm_compute; reflexivity).
  split; [exact Hc|].
  destruct (every_change_notifies_the_three_observers w) as (Hu & _).
  - apply reachable_run.
  - rewrite Hu, Hc. reflexivity.
Defined.

(** X10. In the demo the status of the driver is the argument of the last
    call of [ChangeStatus] ("Available" before the first), and no call of
    [ChangeStatus] gives the status that the driver has at that time. *)
Theorem status_is_the_last_change (w : World) :
  reachable w ->
  status (driver w) = default "Available" (last (calls_ChangeStatus (trace w)))
  ∧ no_repeat "Available" (calls_ChangeStatus (trace w)).
Proof.
  intros Hw.
  destruct (reachable_history_invariant w Hw) as (_ & _ & _ & Hs & Hr & _).
  split; [exact Hs|exact Hr].
Qed.

Lemma status_is_the_last_change_witness :
  let w := run ["y"; "En Route"; "yes"; "En Route"; "yes"; "Available"] in
  status (driver w) = default "Available" (last (calls_ChangeStatus (trace w)))
  ∧ no_repeat "Available" (calls_ChangeStatus (trace w)).
Proof.
  intros w. apply (status_is_the_last_change w). apply reachable_run.
Defined.

(** X11. In the demo the question for the new status always offers three
    statuses: the enumerated statuses other than the current one, in the
    order of the enumeration, shown as "a, b, or c"; they are the statuses
    that the pending callback accepts. *)
Theorem three_statuses_are_offered (w : World) :
  reachable w ->
  ∃ a b c,
    filter (λ s, s ≠ status (driver w)) statuses = [a; b; c]
    ∧ statusList [a; b; c] = a +:+ ", " +:+ b +:+ ", or " +:+ c
    ∧ (∀ s, s ∈ [a; b; c] <-> s ∈ statuses ∧ s ≠ status (driver w))
    ∧ (∀ availableStatuses,
         question w = Some (on_newStatus availableStatuses) ->
         availableStatuses = [a; b; c]).
Proof.
  intros Hw.
  destruct (reachable_invariant w Hw) as (Hs & _).
  destruct (reachable_history_invariant w Hw) as (_ & _ & _ & _ & _ & Hav).
  assert (Hfilter : ∃ a b c,
             filter (λ s, s ≠ status (driver w)) statuses = [a; b; c]
             ∧ statusList [a; b; c] = a +:+ ", " +:+ b +:+ ", or " +:+ c).
  { unfold statuses in Hs.
    repeat (apply elem_of_cons in Hs as [->|Hs]);
      [| | | |now apply elem_of_nil in Hs];
      eexists _, _, _; (split; [vm_compute; reflexivity|reflexivity]). }
  destruct Hfilter as (a & b & c & Hf & Htext).
  exists a, b, c. split; [exact Hf|]. split; [exact Htext|]. split.
  - intros s. rewrite <- Hf, list_elem_of_filter. tauto.
  - intros av Hq. rewrite <- Hf. now apply Hav.
Qed.

Lemma three_statuses_are_offered_witness :
  let w := run ["yes"; "Stopped"; "yes"] in
  ∃ a b c,
    filter (λ s, s ≠ status (driver w)) statuses = [a; b; c]
    ∧ statusList [a; b; c] = a +:+ ", " +:+ b +:+ ", or " +:+ c
    ∧ (∀ s, s ∈ [a; b; c] <-> s ∈ statuses ∧ s ≠ status (driver w))
    ∧ (∀ availableStatuses,
         question w = Some (on_newStatus availableStatuses) ->
         availableStatuses = [a; b; c]).
Proof.
  intros w. apply (three_statuses_are_offered w). apply reachable_run.
Defined.

(** ** The answers that count *)

Lemma capital_of (c l : ascii) :
  (97 <= nat_of_ascii l <= 122)%nat ->
  (nat_of_ascii c + 32 = nat_of_ascii l)%nat ->
  c = ascii_of_nat (nat_of_ascii l - 32).
Proof.
  intros Hl Hc. rewrite <- (ascii_nat_embedding c). f_equal. lia.
Qed.

(** One letter of [same_letters]: the small letter or its capital. *)
Ltac small_or_capital H :=
  destruct H as [->|H];
  [|apply capital_of in H; [|vm_compute; split; lia]; vm_compute in H; subst].

Ltac in_the_list := repeat (first [left; reflexivity|right]).

Lemma spellings_of_yes s :
  toLowerCase s = "yes" ∨ toLowerCase s = "y"
  <-> s ∈ ["y"; "Y"; "yes"; "yeS"; "yEs"; "yES"; "Yes"; "YeS"; "YEs"; "YES"].
Proof.
  rewrite !toLowerCase_small_letters by (vm_compute; repeat split; lia).
  split.
  - intros [H|H].
    + destruct s as [|c1 [|c2 [|c3 [|]]]]; simpl in H; try tauto.
      destruct H as (H1 & H2 & H3 & _).
      small_or_capital H1; small_or_capital H2; small_or_capital H3;
        in_the_list.
    + destruct s as [|c1 [|]]; simpl in H; try tauto.
      destruct H as (H1 & _). small_or_capital H1; in_the_list.
  - intros H.
    repeat (apply elem_of_cons in H as [->|H]);
      [| | | | | | | | | |now apply elem_of_nil in H];
      first [left; repeat split; (now left) || (now right)
            |right; repeat split; (now left) || (now right)].
Qed.

Lemma spellings_of_no s :
  toLowerCase s = "no" ∨ toLowerCase s = "n"
  <-> s ∈ ["n"; "N"; "no"; "nO"; "No"; "NO"].
Proof.
  rewrite !toLowerCase_small_letters by (vm_compute; repeat split; lia).
  split.
  - intros [H|H].
    + destruct s as [|c1 [|c2 [|]]]; simpl in H; try tauto.
      destruct H as (H1 & H2 & _).
      small_or_capital H1; small_or_capital H2; in_the_list.
    + destruct s as [|c1 [|]]; simpl in H; try tauto.
      destruct H as (H1 & _). small_or_capital H1; in_the_list.
  - intros H.
    repeat (apply elem_of_cons in H as [->|H]);
      [| | | | | |now apply elem_of_nil in H];
      first [left; repeat split; (now left) || (now right)
            |right; repeat split; (now left) || (now right)].
Qed.

(** X12. The answers to the yes/no question that count: the program goes on
    to ask for the new status exactly for y, Y and the eight ways to write yes
    in small and capital letters; it closes exactly for n, N and the four ways
    to write no; for every other line, such as the empty line or an answer
    with a space around it, it asks the yes/no question again. *)
Theorem answers_that_count (w : World) (answer : string) :
  question w = Some on_answer ->
  let q := question (on_line answer w) in
  let yes := ["y"; "Y"; "yes"; "yeS"; "yEs"; "yES"; "Yes"; "YeS"; "YEs"; "YES"] in
  let no := ["n"; "N"; "no"; "nO"; "No"; "NO"] in
  ((∃ availableStatuses, q = Some (on_newStatus availableStatuses))
   <-> answer ∈ yes)
  ∧ (q = None <-> answer ∈ no)
  ∧ (q = Some on_answer <-> (answer ∉ yes) ∧ (answer ∉ no)).
Proof.
  intros Hq q yes no. subst q yes no.
  rewrite <- spellings_of_yes, <- spellings_of_no.
  rewrite (on_line_answer answer w Hq).
  destruct (decide (toLowerCase answer = "yes" ∨ toLowerCase answer = "y"))
    as [Hyes|Hnyes].
  { rewrite answer_callback_yes by assumption. cbn [snd question].
    split; [split; [tauto|eauto]|].
    split; [split; [discriminate|]|split; [discriminate|tauto]].
    intros [Hno|Hno]; destruct Hyes as [Hyes|Hyes]; congruence. }
  destruct (decide (toLowerCase answer = "no" ∨ toLowerCase answer = "n"))
    as [Hno|Hnno].
  { rewrite answer_callback_no by assumption. cbn [snd question].
    split; [split; [intros [av Hav]; discriminate|tauto]|].
    split; [tauto|split; [discriminate|tauto]]. }
  rewrite answer_callback_other by tauto. cbn [snd question].
  split; [split; [intros [av Hav]; discriminate|tauto]|].
  split; [split; [discriminate|tauto]|tauto].
Qed.

Lemma answers_that_count_witness :
  (∃ availableStatuses,
     question (on_line "yEs" start) = Some (on_newStatus availableStatuses))
  ∧ question (on_line "No" start) = None
  ∧ question (on_line "" start) = Some on_answer
  ∧ question (on_line "yes " start) = Some on_answer.
Proof.
  assert (Hq : question start = Some on_answer) by reflexivity.
  split.
  { destruct (answers_that_count start "yEs" Hq) as ([_ H] & _ & _).
    apply H. in_the_list. }
  split.
  { destruct (answers_that_count start "No" Hq) as (_ & [_ H] & _).
    apply H. in_the_list. }
  split.
  { destruct (answers_that_count start "" Hq) as (_ & _ & [_ H]).
    apply H. split; intros Hin;
      repeat (apply elem_of_cons in Hin as [Hin|Hin]; [discriminate Hin|]);
      now apply elem_of_nil in Hin. }
  destruct (answers_that_count start "yes " Hq) as (_ & _ & [_ H]).
  apply H. split; intros Hin;
    repeat (apply elem_of_cons in Hin as [Hin|Hin]; [discriminate Hin|]);
    now apply elem_of_nil in Hin.
Defined.

(** ** Exceptions *)

(** X13. [Notify] writes to the trace and to nothing else: whether it returns
    or throws, the driver (name, status and observer array), the observer
    objects and the pending question are as before, [ChangeStatus] is not
    called, and the calls of [Update] are on the first entries of the
    observer array, in order, each with the driver as it is. *)
Theorem Notify_changes_nothing_but_the_trace (w : World) :
  ∃ t, (Notify w).2 = mkWorld (driver w) (heap w) (trace w ++ t) (question w)
       ∧ calls_ChangeStatus t = []
       ∧ count_Notify t = 1%nat
       ∧ calls_Update t
         `prefix_of` map (λ o, (o, driver w)) (listOfObservers (driver w)).
Proof.
  destruct (Notify_frame w) as (c & t & HN & Hn & Hc & Hp & _).
  exists (CallNotify :: t). rewrite HN. simpl.
  split; [reflexivity|]. split; [exact Hc|]. split; [now rewrite Hn|exact Hp].
Qed.

Lemma ChangeStatus_raises s w pre o post e :
  listOfObservers (driver w) = pre ++ o :: post ->
  Forall (returns (heap w)) pre ->
  raises (heap w) o e ->
  ∃ t, ChangeStatus s w
       = (Throw e,
          mkWorld (with_status s (driver w)) (heap w) (trace w ++ t)
            (question w))
       ∧ calls_ChangeStatus t = [s]
       ∧ calls_Update t = map (λ x, (x, with_status s (driver w))) (pre ++ [o]).
Proof.
  intros Hl Hpre Ho. rewrite ChangeStatus_unfold, Notify_unfold.
  set (w1 := mkWorld _ _ _ _).
  set (banner := [CallNotify; _; _]).
  replace (listOfObservers (driver w1)) with (pre ++ o :: post)
    by (symmetry; exact Hl).
  destruct (for_of_call_Update_raises pre o post e (after w1 banner))
    as (t & Ht & [Hu _ Hc]).
  { intros p Hp. rewrite Forall_forall in Hpre. now apply Hpre. }
  { exact Ho. }
  exists (CallChangeStatus s :: banner ++ t). split; [|split].
  - rewrite Ht. unfold after, w1. simpl. now rewrite <- !app_assoc.
  - simpl. now rewrite Hc.
  - simpl. exact Hu.
Qed.

(** X14. In the loop nothing catches what a handler throws.  When a status on
    offer arrives, the handlers of the first listeners return and the next
    one raises [e], the process ends: the status is the new one all the same,
    the listeners up to the failing one have been called and no other, the
    exception is the last event, no question is pending, and the lines that
    follow change nothing. *)
Theorem failing_listener_ends_the_loop (w : World)
    (availableStatuses : list string) (newStatus : string)
    (pre post : list loc) (o : loc) (e : Error) :
  question w = Some (on_newStatus availableStatuses) ->
  newStatus ∈ availableStatuses ->
  listOfObservers (driver w) = pre ++ o :: post ->
  Forall (returns (heap w)) pre ->
  raises (heap w) o e ->
  let w' := on_line newStatus w in
  let d := with_status newStatus (driver w) in
  driver w' = d
  ∧ question w' = None
  ∧ (∃ t, trace w' = trace w ++ t ++ [Uncaught e]
          ∧ calls_ChangeStatus t = [newStatus]
          ∧ calls_Update t = map (λ x, (x, d)) (pre ++ [o]))
  ∧ ∀ lines, fold_left (λ w line, on_line line w) lines w' = w'.
Proof.
  intros Hq Hin Hl Hpre Ho w' d. subst w' d.
  assert (Hw' : ∃ t, on_line newStatus w
                     = mkWorld (with_status newStatus (driver w)) (heap w)
                         (trace w ++ t ++ [Uncaught e]) None
                     ∧ calls_ChangeStatus t = [newStatus]
                     ∧ calls_Update t
                       = map (λ x, (x, with_status newStatus (driver w)))
                           (pre ++ [o])).
  { unfold on_line. rewrite Hq. simpl run_callback.
    unfold newStatus_callback. rewrite bool_decide_eq_true_2 by assumption.
    set (w0 := mkWorld _ _ _ None). unfold console_log.
    rewrite (bind_Normal _ _ _ _ _ (emit_after _ w0)).
    destruct (ChangeStatus_raises newStatus (after w0 [ConsoleLog ""])
                pre o post e Hl Hpre Ho) as (t & HC & Hc & Hu).
    rewrite (bind_Throw _ _ _ _ _ HC).
    exists (ConsoleLog "" :: t). split; [|split].
    - unfold after, w0. simpl. now rewrite <- !app_assoc.
    - simpl. exact Hc.
    - simpl. exact Hu. }
  destruct Hw' as (t & -> & Hc & Hu). cbn [driver question trace].
  split; [reflexivity|]. split; [reflexivity|].
  split; [now exists t|].
  intros lines. now apply on_lines_closed.
Qed.

Lemma failing_listener_ends_the_loop_witness :
  let w := mkWorld (mkDriver "Ted Lasso" "Available" [0; 1; 2]%nat) failing_heap
             [] (Some (on_newStatus ["En Route"; "Stopped"; "Delivered"])) in
  let w' := on_line "Stopped" w in
  let d := mkDriver "Ted Lasso" "Stopped" [0; 1; 2]%nat in
  driver w' = d
  ∧ question w' = None
  ∧ (∃ t, trace w' = t ++ [Uncaught (mkError "Update method must be implemented")]
          ∧ calls_ChangeStatus t = ["Stopped"]
          ∧ calls_Update t = [(0, d); (1, d)]%nat)
  ∧ ∀ lines, fold_left (λ w line, on_line line w) lines w' = w'.
Proof.
  intros w w' d.
  apply (failing_listener_ends_the_loop w
           ["En Route"; "Stopped"; "Delivered"] "Stopped"
           [0%nat] [2%nat] 1%nat).
  - reflexivity.
  - right. left.
  - reflexivity.
  - repeat constructor.
    exact (returns_DriverManager failing_heap 0%nat "Rebecca" eq_refl).
  - exact (raises_IDriverObserver failing_heap 1%nat eq_refl).
Defined.
